(** * Taskify (todo-web-app): the task store of [TodoApp.tsx]

    A shallow embedding of the state and persistence logic of the
    component [TodoApp] and of its two module-level helpers
    [loadTodosFromStorage] and [saveTodosToStorage], followed by the
    properties that the specification states about them.

    Conventions.
    - A JavaScript string is the list of its UTF-16 code units.
    - A [number] that holds an identifier or a time value is an integer
      ([Date.now()] and [Date.prototype.getTime()] return integral
      milliseconds), modelled in [Z].
    - A [Date] is modelled by its time value; the clock is an input of the
      handlers that read it. *)

From Stdlib Require Import ZArith List Ascii String Lia Permutation Sorting.Sorted.
From stdpp Require Import base decidable option list numbers countable gmap fin_maps sorting.

Local Open Scope Z_scope.

(* ===================================================================== *)
(** * Strings *)
(* ===================================================================== *)

Abbreviation jsstring := (list N).

(** A literal of the source, as code units (ASCII literals only). *)
Definition js (s : string) : jsstring :=
  List.map N_of_ascii (list_ascii_of_string s).

(** [WhiteSpace] and [LineTerminator] of ECMAScript: the code units that
    [String.prototype.trim] strips. *)
Definition is_white_space (c : N) : bool :=
  ((c =? 0x09) || (c =? 0x0A) || (c =? 0x0B) || (c =? 0x0C) || (c =? 0x0D)
   || (c =? 0x20) || (c =? 0xA0) || (c =? 0x1680)
   || ((0x2000 <=? c) && (c <=? 0x200A))
   || (c =? 0x2028) || (c =? 0x2029) || (c =? 0x202F) || (c =? 0x205F)
   || (c =? 0x3000) || (c =? 0xFEFF))%N.

Fixpoint trimStart (s : jsstring) : jsstring :=
  match s with
  | [] => []
  | c :: s' => if is_white_space c then trimStart s' else s
  end.

Definition trimEnd (s : jsstring) : jsstring :=
  rev (trimStart (rev s)).

(** [s.trim()] *)
Definition trim (s : jsstring) : jsstring := trimEnd (trimStart s).

(** [s.trim() !== ''] *)
Definition non_blank (s : jsstring) : bool :=
  match trim s with [] => false | _ :: _ => true end.

(* ===================================================================== *)
(** * Data model *)
(* ===================================================================== *)

(** [interface Todo]; [dateCreated?: Date] holds the time value of the date. *)
Record Todo := mkTodo {
  id : Z;
  title : jsstring;
  note : jsstring;
  completed : bool;
  dateCreated : option Z
}.

#[global] Instance Todo_eq_dec : EqDecision Todo.
Proof. solve_decision. Defined.

(** The state bag of the component: one field per [useState]. *)
Record AppState := mkApp {
  todos : list Todo;
  inputTitle : jsstring;
  inputNote : jsstring;
  showInputs : bool;
  isDarkTheme : bool
}.

(* ===================================================================== *)
(** * The platform: exceptions, [localStorage], [console] *)
(* ===================================================================== *)

Inductive js_error :=
| SecurityError       (* storage access denied *)
| QuotaExceededError  (* [setItem] beyond the quota *)
| SyntaxError         (* [JSON.parse] *)
| TypeError.          (* property of [null], call of a non-function *)

(** The completion of a JavaScript evaluation. *)
Inductive completion (A : Type) :=
| Normal (a : A)
| Throw (e : js_error).
Arguments Normal {A} a.
Arguments Throw {A} e.

(** [localStorage]: its items, whether the page may access it, and how many
    code units (keys and values together) it may hold. *)
Record Storage := mkStorage {
  items : gmap jsstring jsstring;
  accessible : bool;
  quota : nat
}.

Definition storage_usage (m : gmap jsstring jsstring) : nat :=
  map_fold (λ k v n, (length k + length v + n)%nat) 0%nat m.

(** A line of [console.error]. *)
Record diagnostic := mkDiagnostic {
  message : jsstring;
  error : js_error
}.

Record world := mkWorld {
  localStorage : Storage;
  console : list diagnostic
}.

(** Evaluations that read and write the world and may throw. *)
Definition JS (A : Type) : Type := world → completion A * world.

Definition ret {A} (a : A) : JS A := λ w, (Normal a, w).
Definition throw {A} (e : js_error) : JS A := λ w, (Throw e, w).
Definition bind {A B} (m : JS A) (k : A → JS B) : JS B :=
  λ w, match m w with
       | (Normal a, w') => k a w'
       | (Throw e, w') => (Throw e, w')
       end.

(** [try { body } catch (error) { handler }] *)
Definition try_catch {A} (body : JS A) (handler : js_error → JS A) : JS A :=
  λ w, match body w with
       | (Normal a, w') => (Normal a, w')
       | (Throw e, w') => handler e w'
       end.

Declare Scope js_scope.
Delimit Scope js_scope with js.
Notation "'let*' x ':=' m 'in' k" := (bind m (λ x, k))
  (at level 10, x name, m at level 100, k at level 200) : js_scope.
Notation "m ';;' k" := (bind m (λ _, k))
  (at level 100, k at level 200, right associativity) : js_scope.

(** Lifting of a pure evaluation that may throw. *)
Definition lift {A} (c : completion A) : JS A := λ w, (c, w).

(** [localStorage.getItem(key)]: the stored string, or [null]. *)
Definition localStorage_getItem (key : jsstring) : JS (option jsstring) :=
  λ w, if accessible (localStorage w)
       then (Normal (items (localStorage w) !! key), w)
       else (Throw SecurityError, w).

(** [localStorage.setItem(key, value)] *)
Definition localStorage_setItem (key value : jsstring) : JS unit :=
  λ w, let ls := localStorage w in
       if accessible ls then
         let items' := <[key := value]> (items ls) in
         if decide (storage_usage items' ≤ quota ls)%nat
         then (Normal (), mkWorld (mkStorage items' true (quota ls)) (console w))
         else (Throw QuotaExceededError, w)
       else (Throw SecurityError, w).

(** [console.error(message, error)] *)
Definition console_error (msg : jsstring) (e : js_error) : JS unit :=
  λ w, (Normal (), mkWorld (localStorage w) (console w ++ [mkDiagnostic msg e])).

(* ===================================================================== *)
(** * The platform: numbers and dates as text *)
(* ===================================================================== *)

(** The [k] decimal digits of [n], most significant first. *)
Fixpoint digits (k : nat) (n : Z) : jsstring :=
  match k with
  | O => []
  | S k' => Z.to_N (48 + n / 10 ^ Z.of_nat k') :: digits k' (n mod 10 ^ Z.of_nat k')
  end.

(** The number of decimal digits of [n], for [0 < n]. *)
Fixpoint count_digits (fuel : nat) (n : Z) : nat :=
  match fuel with
  | O => 1
  | S f => if n <? 10 then 1 else S (count_digits f (n / 10))
  end.

(** [Number::toString] on an integer: decimal digits without leading zero,
    after a minus sign when negative. *)
Definition Number_toString (n : Z) : jsstring :=
  let m := Z.abs n in
  let ds := digits (count_digits (Z.to_nat (Z.log2 m)) m) m in
  if n <? 0 then 45%N :: ds else ds.

(** ** Dates (ECMAScript, Time Values and Time Range) *)

Definition msPerDay : Z := 86400000.

(** [DayFromYear(y)] *)
Definition DayFromYear (y : Z) : Z :=
  365 * (y - 1970) + (y - 1969) / 4 - (y - 1901) / 100 + (y - 1601) / 400.

(** [YearFromTime]: the year [y] with [DayFromYear y ≤ day < DayFromYear (y+1)],
    found from an estimate that is off by at most one. *)
Definition YearFromDay (day : Z) : Z :=
  let y := 1970 + (400 * day) / 146097 in
  if day <? DayFromYear y then y - 1
  else if DayFromYear (y + 1) <=? day then y + 1
  else y.

Definition InLeapYear (y : Z) : bool :=
  ((y mod 4 =? 0) && negb (y mod 100 =? 0)) || (y mod 400 =? 0).

(** Days before the first of month [m] (1 to 13) within the year. *)
Definition days_before_month (leap : bool) (m : Z) : Z :=
  let l := if leap then 1 else 0 in
  match m with
  | 1 => 0 | 2 => 31 | 3 => 59 + l | 4 => 90 + l | 5 => 120 + l
  | 6 => 151 + l | 7 => 181 + l | 8 => 212 + l | 9 => 243 + l
  | 10 => 273 + l | 11 => 304 + l | 12 => 334 + l | _ => 365 + l
  end.

(** [MonthFromTime], numbered from 1, from the day within the year. *)
Definition month_of_day_in_year (leap : bool) (d : Z) : Z :=
  if d <? days_before_month leap 2 then 1
  else if d <? days_before_month leap 3 then 2
  else if d <? days_before_month leap 4 then 3
  else if d <? days_before_month leap 5 then 4
  else if d <? days_before_month leap 6 then 5
  else if d <? days_before_month leap 7 then 6
  else if d <? days_before_month leap 8 then 7
  else if d <? days_before_month leap 9 then 8
  else if d <? days_before_month leap 10 then 9
  else if d <? days_before_month leap 11 then 10
  else if d <? days_before_month leap 12 then 11
  else 12.

(** The largest time value of a [Date]: 8.64e15 ms on either side of the
    epoch. *)
Definition max_time : Z := 8640000000000000.

Definition valid_time (t : Z) : Prop := - max_time ≤ t ≤ max_time.

(** The year of [toISOString]: four digits, or a sign and six digits outside
    0..9999. *)
Definition iso_year (y : Z) : jsstring :=
  if (0 <=? y) && (y <=? 9999) then digits 4 y
  else (if y <? 0 then 45%N else 43%N) :: digits 6 (Z.abs y).

(** [Date.prototype.toISOString] of the date with time value [t]:
    [YYYY-MM-DDTHH:mm:ss.sssZ]. *)
Definition Date_toISOString (t : Z) : jsstring :=
  let day := t / msPerDay in
  let ms_in_day := t mod msPerDay in
  let y := YearFromDay day in
  let leap := InLeapYear y in
  let day_in_year := day - DayFromYear y in
  let m := month_of_day_in_year leap day_in_year in
  let d := day_in_year - days_before_month leap m + 1 in
  iso_year y ++ [45%N] ++ digits 2 m ++ [45%N] ++ digits 2 d ++ [84%N]
    ++ digits 2 (ms_in_day / 3600000) ++ [58%N]
    ++ digits 2 ((ms_in_day / 60000) mod 60) ++ [58%N]
    ++ digits 2 ((ms_in_day / 1000) mod 60) ++ [46%N]
    ++ digits 3 (ms_in_day mod 1000) ++ [90%N].

Definition is_digit (c : N) : bool := ((48 <=? c) && (c <=? 57))%N.

(** Reads exactly [k] decimal digits. *)
Fixpoint read_digits (k : nat) (acc : Z) (s : jsstring)
    : option (Z * jsstring) :=
  match k with
  | O => Some (acc, s)
  | S k' =>
      match s with
      | c :: s' =>
          if is_digit c
          then read_digits k' (10 * acc + (Z.of_N c - 48)) s'
          else None
      | [] => None
      end
  end.

Definition expect (c : N) (s : jsstring) : option jsstring :=
  match s with
  | c' :: s' => if (c' =? c)%N then Some s' else None
  | [] => None
  end.

(** The year of the date-time format: [YYYY], or [+YYYYYY] / [-YYYYYY] with
    [-000000] excluded. *)
Definition read_iso_year (s : jsstring) : option (Z * jsstring) :=
  match s with
  | c :: s' =>
      if (c =? 43)%N then read_digits 6 0 s'
      else if (c =? 45)%N then
        match read_digits 6 0 s' with
        | Some (y, rest) => if y =? 0 then None else Some (- y, rest)
        | None => None
        end
      else read_digits 4 0 s
  | [] => None
  end.

(** [TimeClip] *)
Definition TimeClip (t : Z) : option Z :=
  if (- max_time <=? t) && (t <=? max_time) then Some t else None.

(** [Date.parse] on the complete date-time form with milliseconds and [Z],
    the form that [toISOString] writes: [Some tv] when the string has that
    form and its fields are in range ([tv] is [None] for a time value that
    [TimeClip] rejects), [None] when it has not. *)
Definition parse_iso_date_time (s : jsstring) : option (option Z) :=
  '(y, s) ← read_iso_year s;
  s ← expect 45 s;
  '(m, s) ← read_digits 2 0 s;
  s ← expect 45 s;
  '(d, s) ← read_digits 2 0 s;
  s ← expect 84 s;
  '(hh, s) ← read_digits 2 0 s;
  s ← expect 58 s;
  '(mm, s) ← read_digits 2 0 s;
  s ← expect 58 s;
  '(ss, s) ← read_digits 2 0 s;
  s ← expect 46 s;
  '(ms, s) ← read_digits 3 0 s;
  s ← expect 90 s;
  match s with
  | [] =>
      let leap := InLeapYear y in
      if (1 <=? m) && (m <=? 12) && (1 <=? d)
         && (d <=? days_before_month leap (m + 1) - days_before_month leap m)
         && ((hh <=? 23) || ((hh =? 24) && (mm =? 0) && (ss =? 0) && (ms =? 0)))
         && (mm <=? 59) && (ss <=? 59)
      then
        let day := DayFromYear y + days_before_month leap m + d - 1 in
        Some (TimeClip (day * msPerDay
                        + (hh * 3600000 + mm * 60000 + ss * 1000 + ms)))
      else None
  | _ :: _ => None
  end.

(* ===================================================================== *)
(** * The platform: JSON text *)
(* ===================================================================== *)

(** ** Writing ([JSON.stringify]) *)

Definition hex_digit (n : N) : N :=
  (if n <? 10 then 48 + n else 87 + n)%N.

(** The escape of a code unit by its four hexadecimal digits, in lower case. *)
Definition unicode_escape (c : N) : jsstring :=
  [92; 117; hex_digit (c / 4096); hex_digit ((c / 256) mod 16);
   hex_digit ((c / 16) mod 16); hex_digit (c mod 16)]%N.

Definition is_high_surrogate (c : N) : bool := ((0xD800 <=? c) && (c <=? 0xDBFF))%N.
Definition is_low_surrogate (c : N) : bool := ((0xDC00 <=? c) && (c <=? 0xDFFF))%N.

(** One code unit that is not the first half of a surrogate pair, as
    [QuoteJSONString] writes it. *)
Definition quote_unit (c : N) : jsstring :=
  (if c =? 8 then [92; 98]          (* backspace: reverse solidus, b *)
   else if c =? 9 then [92; 116]    (* tab: reverse solidus, t *)
   else if c =? 10 then [92; 110]   (* line feed: reverse solidus, n *)
   else if c =? 12 then [92; 102]   (* form feed: reverse solidus, f *)
   else if c =? 13 then [92; 114]   (* carriage return: reverse solidus, r *)
   else if c =? 34 then [92; 34]    (* quotation mark *)
   else if c =? 92 then [92; 92]    (* reverse solidus *)
   else if (c <? 32) || is_high_surrogate c || is_low_surrogate c
        then unicode_escape c
   else [c])%N.

(** The code units of a string between the quotes: a surrogate pair is
    written as it is, a lone surrogate is escaped. *)
Fixpoint quote_units (s : jsstring) : jsstring :=
  match s with
  | [] => []
  | c :: s' =>
      if is_high_surrogate c then
        match s' with
        | d :: s'' =>
            if is_low_surrogate d then c :: d :: quote_units s''
            else quote_unit c ++ quote_units s'
        | [] => quote_unit c
        end
      else quote_unit c ++ quote_units s'
  end.

(** [QuoteJSONString] *)
Definition QuoteJSONString (s : jsstring) : jsstring :=
  34%N :: quote_units s ++ [34%N].

(** A property [key: value] of an object, as [JSON.stringify] writes it
    without indentation. *)
Definition write_property (key : string) (value_text : jsstring) : jsstring :=
  QuoteJSONString (js key) ++ 58%N :: value_text.

(** [JSON.stringify] on a record of type [Todo]: the properties in the order
    of their creation; [dateCreated] is written through
    [Date.prototype.toJSON], that is [toISOString], and is left out when
    [undefined]. *)
Definition stringify_todo (todo : Todo) : jsstring :=
  123%N ::
    write_property "id" (Number_toString (id todo)) ++ 44%N ::
    write_property "title" (QuoteJSONString (title todo)) ++ 44%N ::
    write_property "note" (QuoteJSONString (note todo)) ++ 44%N ::
    write_property "completed"
      (if completed todo then js "true" else js "false") ++
    match dateCreated todo with
    | Some t =>
        44%N :: write_property "dateCreated"
                  (QuoteJSONString (Date_toISOString t))
    | None => []
    end ++ [125%N].

(** The elements of an array, separated by commas. *)
Fixpoint write_elements (texts : list jsstring) : jsstring :=
  match texts with
  | [] => []
  | [t] => t
  | t :: texts' => t ++ 44%N :: write_elements texts'
  end.

(** [JSON.stringify(todosToSave)] *)
Definition JSON_stringify (todosToSave : list Todo) : jsstring :=
  91%N :: write_elements (stringify_todo <$> todosToSave) ++ [93%N].

(** ** Reading ([JSON.parse]) *)

(** A JSON value as [JSON.parse] returns it. A number is kept as the exact
    decimal [mantissa * 10 ^ exponent] that the text denotes (an integer
    literal has exponent 0); an object is the list of its members in the
    order of the text, where a later member with the same key wins. *)
Inductive json :=
| JNull
| JBool (b : bool)
| JNum (mantissa exponent : Z)
| JStr (s : jsstring)
| JArr (elements : list json)
| JObj (members : list (jsstring * json)).

Definition is_json_space (c : N) : bool :=
  ((c =? 32) || (c =? 9) || (c =? 10) || (c =? 13))%N.

Fixpoint skip_ws (s : jsstring) : jsstring :=
  match s with
  | c :: s' => if is_json_space c then skip_ws s' else s
  | [] => []
  end.

Definition hex_value (c : N) : option N :=
  (if (48 <=? c) && (c <=? 57) then Some (c - 48)
   else if (97 <=? c) && (c <=? 102) then Some (c - 87)
   else if (65 <=? c) && (c <=? 70) then Some (c - 55)
   else None)%N.

(** The character denoted by a one-letter escape. *)
Definition simple_escape (c : N) : option N :=
  (if c =? 34 then Some 34
   else if c =? 92 then Some 92
   else if c =? 47 then Some 47
   else if c =? 98 then Some 8
   else if c =? 102 then Some 12
   else if c =? 110 then Some 10
   else if c =? 114 then Some 13
   else if c =? 116 then Some 9
   else None)%N.

(** The rest of a string literal after its opening quote: the code units it
    denotes and the text after the closing quote. *)
Fixpoint read_string (s : jsstring) : option (jsstring * jsstring) :=
  match s with
  | [] => None
  | c :: s1 =>
      if (c =? 34)%N then Some ([], s1)
      else if (c =? 92)%N then
        match s1 with
        | [] => None
        | e :: s2 =>
            if (e =? 117)%N then
              match s2 with
              | h1 :: h2 :: h3 :: h4 :: s3 =>
                  match hex_value h1, hex_value h2, hex_value h3, hex_value h4 with
                  | Some a, Some b, Some c', Some d =>
                      match read_string s3 with
                      | Some (r, rest) =>
                          Some ((((a * 16 + b) * 16 + c') * 16 + d)%N :: r, rest)
                      | None => None
                      end
                  | _, _, _, _ => None
                  end
              | _ => None
              end
            else
              match simple_escape e with
              | Some u =>
                  match read_string s2 with
                  | Some (r, rest) => Some (u :: r, rest)
                  | None => None
                  end
              | None => None
              end
        end
      else if (c <? 32)%N then None
      else
        match read_string s1 with
        | Some (r, rest) => Some (c :: r, rest)
        | None => None
        end
  end.

(** A run of decimal digits: the value accumulated, the number of digits
    read, and the text after the run. *)
Fixpoint read_digit_run (acc : Z) (count : Z) (s : jsstring)
    : Z * Z * jsstring :=
  match s with
  | c :: s' =>
      if is_digit c
      then read_digit_run (10 * acc + (Z.of_N c - 48)) (count + 1) s'
      else (acc, count, s)
  | [] => (acc, count, [])
  end.

(** The exponent part of a number, if any. *)
Definition read_exponent (s : jsstring) : option (Z * jsstring) :=
  match s with
  | c :: s1 =>
      if ((c =? 101) || (c =? 69))%N then
        let '(negative, s2) :=
          match expect 43 s1, expect 45 s1 with
          | Some s', _ => (false, s')
          | None, Some s' => (true, s')
          | None, None => (false, s1)
          end in
        let '(e, n, rest) := read_digit_run 0 0 s2 in
        if n =? 0 then None
        else Some (if negative then - e else e, rest)
      else Some (0, s)
  | [] => Some (0, [])
  end.

(** The fraction part of a number, if any, continuing the mantissa. *)
Definition read_fraction (int_part : Z) (s : jsstring)
    : option (Z * Z * jsstring) :=
  match expect 46 s with
  | Some s1 =>
      let '(m, n, rest) := read_digit_run int_part 0 s1 in
      if n =? 0 then None else Some (m, n, rest)
  | None => Some (int_part, 0, s)
  end.

(** The minus sign of a number, if any. *)
Definition read_minus (s : jsstring) : bool * jsstring :=
  match s with
  | c :: s' => if (c =? 45)%N then (true, s') else (false, s)
  | [] => (false, [])
  end.

(** A number literal. *)
Definition read_number (s : jsstring) : option (json * jsstring) :=
  let '(negative, s1) := read_minus s in
  match s1 with
  | c :: s2 =>
      if is_digit c then
        let '(int_part, s3) :=
          if (c =? 48)%N then (0, s2)
          else let '(i, _, r) := read_digit_run (Z.of_N c - 48) 1 s2 in (i, r) in
        '(m, n, s4) ← read_fraction int_part s3;
        '(e, rest) ← read_exponent s4;
        Some (JNum (if negative then - m else m) (e - n), rest)
      else None
  | [] => None
  end.

Fixpoint expect_all (word : jsstring) (s : jsstring) : option jsstring :=
  match word with
  | [] => Some s
  | c :: word' =>
      match expect c s with
      | Some s' => expect_all word' s'
      | None => None
      end
  end.

(** A value that is no array and no object, after its first character [c]:
    a literal name, a string or a number. *)
Definition read_scalar (c : N) (s1 : jsstring) : option (json * jsstring) :=
  if (c =? 110)%N then
    s2 ← expect_all (js "ull") s1; Some (JNull, s2)
  else if (c =? 116)%N then
    s2 ← expect_all (js "rue") s1; Some (JBool true, s2)
  else if (c =? 102)%N then
    s2 ← expect_all (js "alse") s1; Some (JBool false, s2)
  else if (c =? 34)%N then
    '(str, s2) ← read_string s1; Some (JStr str, s2)
  else read_number (c :: s1).

(** A value, the elements of an array after its bracket, the members of an
    object after its brace. [fuel] bounds the depth of the calls; the
    length of the text is always enough ([read_value_fuel_enough]). *)
Fixpoint read_value (fuel : nat) (s : jsstring) : option (json * jsstring) :=
  match fuel with
  | O => None
  | S f =>
      match skip_ws s with
      | [] => None
      | c :: s1 =>
          if (c =? 91)%N then
            match expect 93 (skip_ws s1) with
            | Some s2 => Some (JArr [], s2)
            | None => '(l, s2) ← read_elements f s1; Some (JArr l, s2)
            end
          else if (c =? 123)%N then
            match expect 125 (skip_ws s1) with
            | Some s2 => Some (JObj [], s2)
            | None => '(l, s2) ← read_members f s1; Some (JObj l, s2)
            end
          else read_scalar c s1
      end
  end
with read_elements (fuel : nat) (s : jsstring)
    : option (list json * jsstring) :=
  match fuel with
  | O => None
  | S f =>
      '(v, s1) ← read_value f s;
      match expect 44 (skip_ws s1), expect 93 (skip_ws s1) with
      | Some s2, _ => '(l, s3) ← read_elements f s2; Some (v :: l, s3)
      | None, Some s2 => Some ([v], s2)
      | None, None => None
      end
  end
with read_members (fuel : nat) (s : jsstring)
    : option (list (jsstring * json) * jsstring) :=
  match fuel with
  | O => None
  | S f =>
      s1 ← expect 34 (skip_ws s);
      '(key, s2) ← read_string s1;
      s3 ← expect 58 (skip_ws s2);
      '(v, s4) ← read_value f s3;
      match expect 44 (skip_ws s4), expect 125 (skip_ws s4) with
      | Some s5, _ => '(l, s6) ← read_members f s5; Some ((key, v) :: l, s6)
      | None, Some s5 => Some ([(key, v)], s5)
      | None, None => None
      end
  end.

(** [JSON.parse(text)]: the value, or a [SyntaxError]. *)
Definition JSON_parse (text : jsstring) : completion json :=
  match read_value (S (length text)) text with
  | Some (v, rest) =>
      match skip_ws rest with
      | [] => Normal v
      | _ :: _ => Throw SyntaxError
      end
  | None => Throw SyntaxError
  end.

(* ===================================================================== *)
(** * The platform: objects and [Date] *)
(* ===================================================================== *)

(** What the language leaves to the engine, or what depends on conversions
    that are not modelled: [Date.parse] on a string that is not in the
    date-time form above (the result is the time value, [None] for [NaN]),
    and [new Date(v)] on a value that is not a string (through
    [ToPrimitive] and [ToNumber]; it throws a [TypeError] on an object
    whose [toString] and [valueOf] are not callable). *)
Class Engine := {
  Date_parse_other : jsstring → option Z;
  Date_from_other : json → completion (option Z)
}.

(** An engine that knows no other date format. *)
Definition strict_engine : Engine :=
  {| Date_parse_other := λ _, None;
     Date_from_other := λ _, Normal None |}.

(** [Date.parse(s)] *)
Definition Date_parse `{Engine} (s : jsstring) : option Z :=
  match parse_iso_date_time s with
  | Some tv => tv
  | None => Date_parse_other s
  end.

(** [new Date(v)]: the time value of the new date, [None] for an invalid
    date. *)
Definition new_Date `{Engine} (v : json) : completion (option Z) :=
  match v with
  | JStr s => Normal (Date_parse s)
  | _ => Date_from_other v
  end.

(** The values of the properties of a loaded record: what [JSON.parse]
    gave, a [Date] (by its time value, [None] when invalid), or
    [undefined]. *)
Inductive js_value :=
| VJson (v : json)
| VDate (time_value : option Z)
| VUndefined.

Abbreviation js_object := (gmap jsstring js_value).

(** [todo.dateCreated]: [None] is [undefined]. Reading a property of [null]
    throws; no prototype of a JSON value has a property of this name. *)
Fixpoint get_member (key : jsstring) (members : list (jsstring * json))
    : option json :=
  match members with
  | [] => None
  | (k, v) :: members' =>
      match get_member key members' with
      | Some v' => Some v'
      | None => if decide (k = key) then Some v else None
      end
  end.

Definition get_property (v : json) (key : jsstring) : completion (option json) :=
  match v with
  | JNull => Throw TypeError
  | JObj members => Normal (get_member key members)
  | _ => Normal None
  end.

(** [ToBoolean] *)
Definition ToBoolean (v : option json) : bool :=
  match v with
  | None => false
  | Some JNull => false
  | Some (JBool b) => b
  | Some (JNum m _) => negb (m =? 0)
  | Some (JStr s) => match s with [] => false | _ :: _ => true end
  | Some (JArr _) => true
  | Some (JObj _) => true
  end.

(** The own enumerable properties that a spread [{...v}] copies: the members
    of an object (the last one of a key), the elements of an array and the
    code units of a string under their indices, nothing for [null], a
    boolean or a number. *)
Definition own_properties (v : json) : js_object :=
  match v with
  | JObj members =>
      foldl (λ (o : js_object) (kv : jsstring * json),
               <[kv.1 := VJson kv.2]> o) ∅ members
  | JArr elements =>
      list_to_map (imap (λ i e, (Number_toString (Z.of_nat i), VJson e)) elements)
  | JStr s =>
      list_to_map (imap (λ i c, (Number_toString (Z.of_nat i), VJson (JStr [c]))) s)
  | _ => ∅
  end.

(** [mapM] over the elements, left to right. *)
Fixpoint each {A B} (f : A → JS B) (l : list A) : JS (list B) :=
  match l with
  | [] => ret []
  | x :: l' =>
      (let* y := f x in
       let* ys := each f l' in
       ret (y :: ys))%js
  end.

(** [v.map(f)]: only an array has a method [map]. *)
Definition Array_map {B} (f : json → JS B) (v : json) : JS (list B) :=
  match v with
  | JArr elements => each f elements
  | _ => throw TypeError
  end.

(* ===================================================================== *)
(** * Persistence *)
(* ===================================================================== *)

Definition STORAGE_KEY : jsstring := js "todoApp.todos".
Definition THEME_STORAGE_KEY : jsstring := js "todoApp.theme".

(** The arrow function of [loadTodosFromStorage]:
    [{...todo, dateCreated: todo.dateCreated ? new Date(todo.dateCreated) : undefined}] *)
Definition revive_todo `{Engine} (todo : json) : JS js_object :=
  (let copy := own_properties todo in
   let* dc := lift (get_property todo (js "dateCreated")) in
   let* date :=
     match dc with
     | Some v =>
         if ToBoolean dc
         then (let* d := lift (new_Date v) in ret (VDate d))
         else ret VUndefined
     | None => ret VUndefined
     end in
   ret (<[js "dateCreated" := date]> copy))%js.

Definition loadTodosFromStorage `{Engine} : JS (list js_object) :=
  try_catch
    (let* storedTodo := localStorage_getItem STORAGE_KEY in
     match storedTodo with
     | Some text =>
         match text with
         | _ :: _ =>
             (let* todos := lift (JSON_parse text) in
              Array_map revive_todo todos)
         | [] => ret []
         end
     | None => ret []
     end)%js
    (λ error,
       console_error (js "Failed to load todos from storage:") error ;;
       ret [])%js.

Definition saveTodosToStorage (todosToSave : list Todo) : JS unit :=
  try_catch
    (localStorage_setItem STORAGE_KEY (JSON_stringify todosToSave))
    (λ error, console_error (js "Failed to save todos to storage:") error).

(** A record of type [Todo] as an object, and an object read at type
    [Todo]. *)
Definition object_of_todo (todo : Todo) : js_object :=
  <[js "dateCreated" := match dateCreated todo with
                         | Some t => VDate (Some t)
                         | None => VUndefined
                         end]>
  (<[js "completed" := VJson (JBool (completed todo))]>
  (<[js "note" := VJson (JStr (note todo))]>
  (<[js "title" := VJson (JStr (title todo))]>
  (<[js "id" := VJson (JNum (id todo) 0)]> ∅)))).

Definition todo_of_object (o : js_object) : option Todo :=
  match o !! js "id", o !! js "title", o !! js "note", o !! js "completed",
        o !! js "dateCreated" with
  | Some (VJson (JNum i 0)), Some (VJson (JStr t)), Some (VJson (JStr n)),
    Some (VJson (JBool c)), Some (VDate (Some d)) =>
      Some (mkTodo i t n c (Some d))
  | Some (VJson (JNum i 0)), Some (VJson (JStr t)), Some (VJson (JStr n)),
    Some (VJson (JBool c)), Some VUndefined =>
      Some (mkTodo i t n c None)
  | _, _, _, _, _ => None
  end.


(** What [JSON.parse] reads back from the text of a record. *)
Definition json_of_todo (todo : Todo) : json :=
  JObj ([(js "id", JNum (id todo) 0);
         (js "title", JStr (title todo));
         (js "note", JStr (note todo));
         (js "completed", JBool (completed todo))]
        ++ match dateCreated todo with
           | Some t => [(js "dateCreated", JStr (Date_toISOString t))]
           | None => []
           end).

(** The dates of a record are dates: their time value is in the range of
    [Date]. *)
Definition well_formed (todo : Todo) : Prop :=
  match dateCreated todo with
  | Some t => valid_time t
  | None => True
  end.

(** The world after the diagnostic of a failed load. *)
Definition load_failure_logged (w : world) (e : js_error) : world :=
  mkWorld (localStorage w)
          (console w ++ [mkDiagnostic (js "Failed to load todos from storage:") e]).

(** Sample worlds. *)
Definition empty_world : world := mkWorld (mkStorage ∅ true 5000) [].

(* ===================================================================== *)
(** * Event handlers *)
(* ===================================================================== *)

Definition setTodos (st : AppState) (l : list Todo) : AppState :=
  mkApp l (inputTitle st) (inputNote st) (showInputs st) (isDarkTheme st).

Definition setInputTitle (st : AppState) (s : jsstring) : AppState :=
  mkApp (todos st) s (inputNote st) (showInputs st) (isDarkTheme st).

Definition setInputNote (st : AppState) (s : jsstring) : AppState :=
  mkApp (todos st) (inputTitle st) s (showInputs st) (isDarkTheme st).

Definition setShowInputs (st : AppState) (b : bool) : AppState :=
  mkApp (todos st) (inputTitle st) (inputNote st) b (isDarkTheme st).

Definition setIsDarkTheme (st : AppState) (b : bool) : AppState :=
  mkApp (todos st) (inputTitle st) (inputNote st) (showInputs st) b.

Definition toggleTheme (st : AppState) : AppState :=
  setIsDarkTheme st (negb (isDarkTheme st)).

Definition toggleInputFields (st : AppState) : AppState :=
  setShowInputs st (negb (showInputs st)).

(** [addTodo]. The clock is read twice: [Date.now()] for the identifier and
    [new Date()] for the creation date; [now_id] and [now_date] are the two
    readings. *)
Definition addTodo (st : AppState) (now_id now_date : Z) : AppState :=
  if non_blank (inputTitle st) && non_blank (inputNote st) then
    let newTodo :=
      {| id := now_id;
         title := inputTitle st;
         note := inputNote st;
         completed := false;
         dateCreated := Some now_date |} in
    let st1 := setTodos st (todos st ++ [newTodo]) in
    let st2 := setInputTitle st1 [] in
    let st3 := setInputNote st2 [] in
    setShowInputs st3 false
  else st.

(** The arrow function mapped by [toggleTodo]. *)
Definition toggle_one (i : Z) (todo : Todo) : Todo :=
  if decide (id todo = i)
  then {| id := id todo; title := title todo; note := note todo;
          completed := negb (completed todo);
          dateCreated := dateCreated todo |}
  else todo.

Definition toggleTodo (st : AppState) (i : Z) : AppState :=
  setTodos st (toggle_one i <$> todos st).

Definition deleteTodo (st : AppState) (i : Z) : AppState :=
  setTodos st (filter (λ todo, id todo ≠ i) (todos st)).

(** The operations of the task store as the specification names them:
    [Add(title, note)] is the form filled in and submitted. *)
Definition Add (title note : jsstring) (now_id now_date : Z)
    (st : AppState) : AppState :=
  addTodo (setInputNote (setInputTitle st title) note) now_id now_date.

Definition Toggle (i : Z) (st : AppState) : AppState := toggleTodo st i.
Definition Delete (i : Z) (st : AppState) : AppState := deleteTodo st i.

(** ** The revision without dates

    The revision of the component in which a record has no [dateCreated]:
    [loadTodosFromStorage] returns what [JSON.parse] gives, and [addTodo]
    creates a record of four fields. [toggleTodo], [deleteTodo] and
    [saveTodosToStorage] are the same in both. *)
Module WithoutDates.

Definition loadTodosFromStorage : JS json :=
  try_catch
    (let* storedTodo := localStorage_getItem STORAGE_KEY in
     match storedTodo with
     | Some text =>
         match text with
         | _ :: _ => lift (JSON_parse text)
         | [] => ret (JArr [])
         end
     | None => ret (JArr [])
     end)%js
    (λ error,
       console_error (js "Failed to load todos from storage:") error ;;
       ret (JArr []))%js.

Definition addTodo (st : AppState) (now_id : Z) : AppState :=
  if non_blank (inputTitle st) && non_blank (inputNote st) then
    let newTodo :=
      {| id := now_id;
         title := inputTitle st;
         note := inputNote st;
         completed := false;
         dateCreated := None |} in
    let st1 := setTodos st (todos st ++ [newTodo]) in
    let st2 := setInputTitle st1 [] in
    let st3 := setInputNote st2 [] in
    setShowInputs st3 false
  else st.

End WithoutDates.

(** The session of the invariant: a sequence of store operations, each [Add]
    with the two clock readings it observes. *)
Inductive op :=
| OpAdd (title note : jsstring) (now_id now_date : Z)
| OpToggle (i : Z)
| OpDelete (i : Z).

Definition step (o : op) (st : AppState) : AppState :=
  match o with
  | OpAdd t n ni nd => Add t n ni nd st
  | OpToggle i => Toggle i st
  | OpDelete i => Delete i st
  end.

Fixpoint run (ops : list op) (st : AppState) : AppState :=
  match ops with
  | [] => st
  | o :: ops' => run ops' (step o st)
  end.

(** The component as mounted over an empty store. *)
Definition empty_session : AppState := mkApp [] [] [] false false.

(** The clock readings that become identifiers during a session. *)
Fixpoint appended_ids (ops : list op) : list Z :=
  match ops with
  | [] => []
  | OpAdd t n ni _ :: ops' =>
      if non_blank t && non_blank n then ni :: appended_ids ops'
      else appended_ids ops'
  | _ :: ops' => appended_ids ops'
  end.

(** Vocabulary of the statements. *)
Definition flipped (r : Todo) : Todo :=
  mkTodo (id r) (title r) (note r) (negb (completed r)) (dateCreated r).

Definition matching (i : Z) (l : list Todo) : list Todo :=
  filter (λ todo, id todo = i) l.

Definition count_changed (l l' : list Todo) : nat :=
  length (filter (λ p : Todo * Todo, p.1 ≠ p.2) (zip l l')).

(** Sample records and states used by the examples. *)
Definition milk : Todo :=
  mkTodo 1700000000000 (js "Buy milk") (js "2 liters") false (Some 1700000000000).
Definition bread : Todo :=
  mkTodo 1700000000500 (js "Buy bread") (js "whole grain") true (Some 1700000000501).
Definition milk_again : Todo :=
  mkTodo 1700000000000 (js "Buy milk") (js "one more") false (Some 1700000000000).

Definition two_tasks : AppState := mkApp [milk; bread] [] [] false false.
Definition twin_tasks : AppState := mkApp [milk; bread; milk_again] [] [] false false.

(** A state holding one record whose identifier is the clock reading 5. *)
Definition at_tick_5 : AppState :=
  mkApp [mkTodo 5 (js "a") (js "b") false (Some 5)] [] [] false false.

(* ===================================================================== *)
(** * Display order *)
(* ===================================================================== *)

(** [Array.prototype.sort(comparefn)] on the contents of an array. The sort
    of ECMAScript is stable, and for a consistent comparator its result is
    the stable sorted rearrangement of the elements; insertion from the
    right computes that rearrangement: [x] goes in front of the first [y]
    that the comparator does not put before it. For the comparator of the
    component no other rearrangement is sorted and stable
    ([sortedTodos_unique]). *)
Fixpoint sort_insert {A : Type} (comparefn : A → A → Z) (x : A) (l : list A)
    : list A :=
  match l with
  | [] => [x]
  | y :: l' =>
      if comparefn x y <=? 0 then x :: y :: l'
      else y :: sort_insert comparefn x l'
  end.

Fixpoint array_sort {A : Type} (comparefn : A → A → Z) (l : list A) : list A :=
  match l with
  | [] => []
  | x :: l' => sort_insert comparefn x (array_sort comparefn l')
  end.

(** [a.dateCreated ? new Date(a.dateCreated).getTime() : 0]. A [Date] object
    is truthy whatever its time value. *)
Definition time_key (a : Todo) : Z :=
  match dateCreated a with
  | Some t => t
  | None => 0
  end.

(** The comparator of [sortedTodos]: [dateB - dateA]. Only its sign is used
    by the sort, and the sign of the floating-point difference of two time
    values is the sign of their exact difference. *)
Definition compareTodos (a b : Todo) : Z :=
  let dateA := time_key a in
  let dateB := time_key b in
  dateB - dateA.


(** The value of [sortedTodos] for the contents [l] of [todos]. *)
Definition sortedTodos (l : list Todo) : list Todo :=
  array_sort compareTodos l.

(** ** Arrays as objects

    [[...todos].sort(...)]: the array literal with a spread allocates a new
    array, and [sort] rearranges the array it is called on, in place, and
    returns it. The heap maps array references to contents. *)
Abbreviation loc := positive.
Abbreviation heap := (gmap positive (list Todo)).

(** [[...src]] *)
Definition array_spread (h : heap) (src : loc) : heap * loc :=
  let copy := fresh (dom h) in
  (<[copy := default [] (h !! src)]> h, copy).

(** [arr.sort(comparefn)] *)
Definition array_sort_in_place (comparefn : Todo → Todo → Z)
    (h : heap) (arr : loc) : heap * loc :=
  (alter (array_sort comparefn) arr h, arr).

(** [const sortedTodos = [...todos].sort((a, b) => ...)], with [todos] the
    reference of the state array. *)
Definition sortedTodos_on_heap (h : heap) (todos_ref : loc) : heap * loc :=
  let '(h1, copy) := array_spread h todos_ref in
  array_sort_in_place compareTodos h1 copy.

(** Sample records for the display order. *)
Definition eggs : Todo :=
  mkTodo 1700000000900 (js "Buy eggs") (js "a dozen") false (Some 1700000000900).
Definition undated : Todo := mkTodo 3 (js "old entry") (js "no date") false None.

(* ===================================================================== *)
(** * The theme preference and the effects of the component *)
(* ===================================================================== *)

(** The page: the world and the class of [document.body]. *)
Record page := mkPage {
  page_world : world;
  body_className : jsstring
}.

(** The initialiser of [isDarkTheme]:
    [localStorage.getItem(THEME_STORAGE_KEY) === 'dark']. It is not inside
    a [try]. *)
Definition initial_isDarkTheme : JS bool :=
  (let* savedTheme := localStorage_getItem THEME_STORAGE_KEY in
   ret (bool_decide (savedTheme = Some (js "dark"))))%js.

(** The effect on [isDarkTheme]: the preference is written, then the class
    of the body is set. Neither statement is inside a [try]. *)
Definition theme_effect (isDarkTheme : bool) (p : page) : completion unit * page :=
  match localStorage_setItem THEME_STORAGE_KEY
          (if isDarkTheme then js "dark" else js "light") (page_world p) with
  | (Normal _, w') =>
      (Normal (),
       mkPage w' (if isDarkTheme then js "dark-theme" else js "light-theme"))
  | (Throw e, w') => (Throw e, mkPage w' (body_className p))
  end.

(** The effect on [todos]: [saveTodosToStorage(todos)]. *)
Definition todos_effect (l : list Todo) (p : page) : page :=
  mkPage (saveTodosToStorage l (page_world p)).2 (body_className p).

(** What the user does: the [onChange] of the two fields, the click on the
    plus icon, on "Add Task", on a card (its title, note or toggle button),
    on a delete button, and the theme switch. *)
Inductive event :=
| TypeTitle (value : jsstring)
| TypeNote (value : jsstring)
| ClickPlus
| ClickAddTask (now_id now_date : Z)
| ClickToggle (i : Z)
| ClickDelete (i : Z)
| SwitchTheme.

Definition handle (e : event) (st : AppState) : AppState :=
  match e with
  | TypeTitle value => setInputTitle st value
  | TypeNote value => setInputNote st value
  | ClickPlus => toggleInputFields st
  | ClickAddTask now_id now_date => addTodo st now_id now_date
  | ClickToggle i => toggleTodo st i
  | ClickDelete i => deleteTodo st i
  | SwitchTheme => toggleTheme st
  end.

(** Whether the handler calls [setTodos]: [map], [filter] and the array
    literal always build a new array, so the effect on [todos] runs. *)
Definition sets_todos (e : event) (st : AppState) : bool :=
  match e with
  | ClickAddTask _ _ => non_blank (inputTitle st) && non_blank (inputNote st)
  | ClickToggle _ => true
  | ClickDelete _ => true
  | _ => false
  end.

(** The page after the effect on [todos], when the handler of the event
    called [setTodos]. *)
Definition after_todos_effect (e : event) (st : AppState) (p : page) : page :=
  if sets_todos e st then todos_effect (todos (handle e st)) p else p.

(** One event: the handler, then the effects whose dependency changed. A
    [Throw] is an error that leaves the component. *)
Definition dispatch (e : event) (st : AppState) (p : page)
    : completion AppState * page :=
  let st' := handle e st in
  let p1 := after_todos_effect e st p in
  match e with
  | SwitchTheme =>
      match theme_effect (isDarkTheme st') p1 with
      | (Normal _, p2) => (Normal st', p2)
      | (Throw err, p2) => (Throw err, p2)
      end
  | _ => (Normal st', p1)
  end.

Fixpoint dispatch_all (es : list event) (st : AppState) (p : page)
    : completion AppState * page :=
  match es with
  | [] => (Normal st, p)
  | e :: es' =>
      match dispatch e st p with
      | (Normal st', p') => dispatch_all es' st' p'
      | (Throw err, p') => (Throw err, p')
      end
  end.

(** The initial values of the state: [useState(loadTodosFromStorage())],
    the three constants, and the initialiser of the theme. *)
Definition initial_state `{Engine} : JS (list js_object * bool) :=
  (let* todos := loadTodosFromStorage in
   let* isDarkTheme := initial_isDarkTheme in
   ret (todos, isDarkTheme))%js.

(** The initial state read at type [AppState]. *)
Definition state_of_initial (init : list js_object * bool) : option AppState :=
  l ← mapM todo_of_object init.1; Some (mkApp l [] [] false init.2).

(** The stored snapshot is the text of the collection. *)
Definition in_sync (st : AppState) (p : page) : Prop :=
  items (localStorage (page_world p)) !! STORAGE_KEY
  = Some (JSON_stringify (todos st)).

(** The world after the diagnostic of a failed save. *)
Definition save_failure_logged (w : world) (e : js_error) : world :=
  mkWorld (localStorage w)
          (console w ++ [mkDiagnostic (js "Failed to save todos to storage:") e]).

(** Sample worlds and pages. *)
Definition denied_world : world := mkWorld (mkStorage ∅ false 5000) [].
Definition full_world : world := mkWorld (mkStorage ∅ true 3) [].
Definition empty_page : page := mkPage empty_world [].

(** The stored preference is the theme of the state. *)
Definition theme_in_sync (st : AppState) (p : page) : Prop :=
  items (localStorage (page_world p)) !! THEME_STORAGE_KEY
  = Some (if isDarkTheme st then js "dark" else js "light").

(** A page whose store holds the empty collection and the light theme. *)
Definition blank_page : page :=
  mkPage (mkWorld (mkStorage {[ STORAGE_KEY := js "[]";
                                THEME_STORAGE_KEY := js "light" ]} true 5000) [])
         (js "light-theme").

(** The first render: both effects run, in the order of their declaration. *)
Definition mount (st : AppState) (p : page) : completion unit * page :=
  theme_effect (isDarkTheme st) (todos_effect (todos st) p).

(** A sample session: the form is opened and filled in, the task is added
    at the clock reading 1700000000000 and completed, and the theme is
    switched; and the state a reload should give. *)
Definition sample_events : list event :=
  [ClickPlus; TypeTitle (js "Buy milk"); TypeNote (js "2 liters");
   ClickAddTask 1700000000000 1700000000000; ClickToggle 1700000000000;
   SwitchTheme].
Definition sample_reloaded : AppState :=
  mkApp [mkTodo 1700000000000 (js "Buy milk") (js "2 liters") true
           (Some 1700000000000)] [] [] false true.

(* ===================================================================== *)
(** * Properties of the handlers *)
(* ===================================================================== *)

Section Trim.

Lemma trimStart_nil_iff (s : jsstring) :
  trimStart s = [] ↔ Forall (λ c, is_white_space c = true) s.
Proof.
  induction s as [|c s IH]; simpl.
  - split; [constructor | done].
  - destruct (is_white_space c) eqn:Hc.
    + rewrite IH. split.
      * intros H. by constructor.
      * by inversion 1.
    + split; [done |]. inversion 1; congruence.
Qed.

Lemma trimStart_suffix (s : jsstring) : trimStart s `suffix_of` s.
Proof.
  induction s as [|c s IH]; simpl; [done |].
  destruct (is_white_space c); [by apply suffix_cons_r | done].
Qed.

(** A string is blank for [addTodo] exactly when it is empty or made of
    white space only. *)
Lemma non_blank_false_iff (s : jsstring) :
  non_blank s = false ↔ Forall (λ c, is_white_space c = true) s.
Proof.
  unfold non_blank, trim, trimEnd.
  split.
  - intros H.
    destruct (rev (trimStart (rev (trimStart s)))) eqn:E; [|done].
    apply (f_equal (@rev N)) in E. rewrite rev_involutive in E. simpl in E.
    apply trimStart_nil_iff in E.
    destruct (trimStart s) as [|c s'] eqn:Es.
    + by apply trimStart_nil_iff.
    + exfalso.
      assert (Hc : is_white_space c = false).
      { clear -Es. induction s as [|d s IH]; simpl in Es; [done |].
        destruct (is_white_space d) eqn:Hd; [by apply IH | congruence]. }
      apply Forall_forall with (x := c) in E; [congruence |].
      apply list_elem_of_In, in_rev. rewrite rev_involutive. by left.
  - intros H. apply trimStart_nil_iff in H. by rewrite H.
Qed.

Lemma non_blank_true_iff (s : jsstring) :
  non_blank s = true ↔ Exists (λ c, is_white_space c = false) s.
Proof.
  rewrite <- not_false_iff_true, non_blank_false_iff.
  induction s as [|c s IH].
  - split; [intros H; destruct H; constructor | inversion 1].
  - rewrite Forall_cons, Exists_cons, <- IH.
    destruct (is_white_space c); split.
    + intros H. right. intros H'. by apply H.
    + intros [? | H] [_ H']; [done | by apply H].
    + intros _. by left.
    + intros _ [? _]. done.
Qed.

End Trim.

Section Handlers.

Implicit Types (st : AppState) (i : Z) (r : Todo) (l : list Todo).

Lemma toggle_one_other i r : id r ≠ i → toggle_one i r = r.
Proof. intros H. unfold toggle_one. by rewrite decide_False. Qed.

Lemma toggle_one_match i r : id r = i → toggle_one i r = flipped r.
Proof. intros H. unfold toggle_one. by rewrite decide_True. Qed.

Lemma flipped_neq r : flipped r ≠ r.
Proof. destruct r as [? ? ? [] ?]; unfold flipped; simpl; congruence. Qed.

Lemma toggle_absent i l :
  (∀ r, r ∈ l → id r ≠ i) → toggle_one i <$> l = l.
Proof.
  induction l as [|r l IH]; intros H; simpl; [done |].
  rewrite toggle_one_other by (apply H; left).
  f_equal. apply IH. intros x Hx. apply H. by right.
Qed.

Lemma delete_absent i l :
  (∀ r, r ∈ l → id r ≠ i) → filter (λ todo, id todo ≠ i) l = l.
Proof.
  intros H. induction l as [|r l IH]; [done |].
  rewrite filter_cons_True by (apply H; left).
  f_equal. apply IH. intros x Hx. apply H. by right.
Qed.

Lemma todos_Add_non_blank st t n ni nd :
  non_blank t = true → non_blank n = true →
  Add t n ni nd st = mkApp (todos st ++ [mkTodo ni t n false (Some nd)])
                           [] [] false (isDarkTheme st).
Proof.
  intros Ht Hn. unfold Add, addTodo. simpl. by rewrite Ht, Hn.
Qed.

Lemma todos_Add_blank st t n ni nd :
  non_blank t && non_blank n = false →
  todos (Add t n ni nd st) = todos st.
Proof. intros H. unfold Add, addTodo. simpl. by rewrite H. Qed.

End Handlers.

(* ===================================================================== *)
(** * Toggle and Delete *)
(* ===================================================================== *)

(** C1. [Toggle(id)] keeps the length and the order of the collection; at
    every position holding a record with that identifier the completion
    flag is negated and [id], [title], [note] and [dateCreated] are kept;
    every record with another identifier is left as it is; when the
    identifier occurs once the result is the collection with that one
    record flipped in place; when it does not occur the state is unchanged. *)
Theorem toggle_flips_matching_record (st : AppState) (i : Z) :
  length (todos (Toggle i st)) = length (todos st)
  ∧ (∀ (k : nat) (r : Todo), todos st !! k = Some r → id r = i →
       ∃ r', todos (Toggle i st) !! k = Some r'
         ∧ completed r' = negb (completed r)
         ∧ id r' = id r ∧ title r' = title r ∧ note r' = note r
         ∧ dateCreated r' = dateCreated r)
  ∧ (∀ (k : nat) (r : Todo), todos st !! k = Some r → id r ≠ i →
       todos (Toggle i st) !! k = Some r)
  ∧ (∀ l1 r l2, todos st = l1 ++ r :: l2 → id r = i →
       Forall (λ x, id x ≠ i) (l1 ++ l2) →
       todos (Toggle i st) = l1 ++ flipped r :: l2)
  ∧ (Forall (λ r, id r ≠ i) (todos st) → Toggle i st = st).
Proof.
  unfold Toggle, toggleTodo. simpl. repeat split.
  - apply length_fmap.
  - intros k r Hk Hi. exists (flipped r).
    rewrite list_lookup_fmap, Hk. simpl.
    by rewrite toggle_one_match.
  - intros k r Hk Hi. rewrite list_lookup_fmap, Hk. simpl.
    by rewrite toggle_one_other.
  - intros l1 r l2 -> Hi Hrest. apply Forall_app in Hrest as [H1 H2].
    rewrite fmap_app, fmap_cons, toggle_one_match by done.
    rewrite !toggle_absent; [done | |]; intros x Hx;
      eapply Forall_forall in Hx; eauto; done.
  - intros H. destruct st as [l ? ? ? ?]. unfold setTodos. simpl in *.
    f_equal. apply toggle_absent. intros r Hr.
    eapply Forall_forall in H; eauto.
Qed.

Lemma toggle_flips_matching_record_witness :
  (∃ r', todos (Toggle 1700000000500 two_tasks) !! 1%nat = Some r'
     ∧ completed r' = negb (completed bread)
     ∧ id r' = id bread ∧ title r' = title bread ∧ note r' = note bread
     ∧ dateCreated r' = dateCreated bread)
  ∧ todos (Toggle 1700000000500 two_tasks) !! 0%nat = Some milk
  ∧ todos (Toggle 1700000000500 two_tasks) = [milk] ++ flipped bread :: []
  ∧ Toggle 7 two_tasks = two_tasks.
Proof.
  destruct (toggle_flips_matching_record two_tasks 1700000000500)
    as (_ & Hflip & Hkeep & Hone & _).
  destruct (toggle_flips_matching_record two_tasks 7) as (_ & _ & _ & _ & Hnone).
  split; [| split; [| split]].
  - apply (Hflip 1%nat bread); reflexivity.
  - apply (Hkeep 0%nat milk); [reflexivity | vm_compute; discriminate].
  - apply (Hone [milk] bread []); [reflexivity | reflexivity |].
    repeat constructor. vm_compute. discriminate.
  - apply Hnone. repeat constructor; vm_compute; discriminate.
Defined.

(** C2. [Delete(id)] keeps exactly the records whose identifier differs, in
    their order; when the identifier occurs once, the result is the
    collection with that one record taken out; when it does not occur the
    state is unchanged. *)
Theorem delete_removes_matching_record (st : AppState) (i : Z) :
  todos (Delete i st) `sublist_of` todos st
  ∧ (∀ r, r ∈ todos (Delete i st) ↔ r ∈ todos st ∧ id r ≠ i)
  ∧ (∀ l1 r l2, todos st = l1 ++ r :: l2 → id r = i →
       Forall (λ x, id x ≠ i) (l1 ++ l2) →
       todos (Delete i st) = l1 ++ l2)
  ∧ (Forall (λ r, id r ≠ i) (todos st) → Delete i st = st).
Proof.
  unfold Delete, deleteTodo. simpl. split; [| split; [| split]].
  - apply sublist_filter.
  - intros r. rewrite list_elem_of_filter. tauto.
  - intros l1 r l2 -> Hi Hrest. apply Forall_app in Hrest as [H1 H2].
    rewrite filter_app, filter_cons_False by (intros H; by apply H).
    rewrite !delete_absent; [done | |]; intros x Hx;
      eapply Forall_forall in Hx; eauto; done.
  - intros H. destruct st as [l ? ? ? ?]. unfold setTodos. simpl in *.
    f_equal. apply delete_absent. intros r Hr.
    eapply Forall_forall in H; eauto.
Qed.

Lemma delete_removes_matching_record_witness :
  todos (Delete 1700000000000 two_tasks) = [] ++ [bread]
  ∧ Delete 7 two_tasks = two_tasks.
Proof.
  destruct (delete_removes_matching_record two_tasks 1700000000000)
    as (_ & _ & Hone & _).
  destruct (delete_removes_matching_record two_tasks 7) as (_ & _ & _ & Hnone).
  split.
  - apply (Hone [] milk [bread]); [reflexivity | reflexivity |].
    repeat constructor. vm_compute. discriminate.
  - apply Hnone. repeat constructor; vm_compute; discriminate.
Defined.

(* ===================================================================== *)
(** * Add *)
(* ===================================================================== *)




(** C4. When the title or the note is blank after trimming, [Add] leaves the
    collection unchanged: [addTodo] returns the state it was called in. *)
Theorem add_blank_is_noop (st : AppState) (t n : jsstring) (now_id now_date : Z) :
  trim t = [] ∨ trim n = [] →
  todos (Add t n now_id now_date st) = todos st
  ∧ Add t n now_id now_date st = setInputNote (setInputTitle st t) n.
Proof.
  intros H.
  assert (Hb : non_blank t && non_blank n = false).
  { unfold non_blank. destruct H as [-> | ->]; [done |].
    by rewrite andb_false_r. }
  split; [by apply todos_Add_blank |].
  unfold Add, addTodo. simpl. by rewrite Hb.
Qed.

Lemma add_blank_is_noop_witness :
  todos (Add (js "   ") (js "2 liters") 7 8 two_tasks) = todos two_tasks
  ∧ todos (Add (js "Buy milk") [0x09; 0xA0; 0x0A]%N 7 8 two_tasks) = todos two_tasks.
Proof.
  split.
  - apply (add_blank_is_noop two_tasks (js "   ") (js "2 liters") 7 8).
    left. reflexivity.
  - apply (add_blank_is_noop two_tasks (js "Buy milk") [0x09; 0xA0; 0x0A]%N 7 8).
    right. reflexivity.
Defined.

(* ===================================================================== *)
(** * Identifiers during a session *)
(* ===================================================================== *)

Section Session.

Lemma ids_step_sublist (o : op) (st : AppState) :
  ∃ l, id <$> todos (step o st) = l ++
         match o with
         | OpAdd t n ni _ => if non_blank t && non_blank n then [ni] else []
         | _ => []
         end
       ∧ l `sublist_of` id <$> todos st.
Proof.
  destruct o as [t n ni nd | i | i]; simpl.
  - unfold Add, addTodo. simpl.
    destruct (non_blank t && non_blank n); simpl.
    + exists (id <$> todos st). by rewrite fmap_app.
    + exists (id <$> todos st). by rewrite app_nil_r.
  - exists (id <$> todos st). rewrite app_nil_r. split; [| done].
    unfold Toggle, toggleTodo. simpl. rewrite <- list_fmap_compose.
    apply list_fmap_ext. intros k r _. simpl. unfold toggle_one.
    by destruct (decide _).
  - exists (id <$> filter (λ todo, id todo ≠ i) (todos st)).
    rewrite app_nil_r. split; [done |].
    apply fmap_sublist, sublist_filter.
Qed.

Lemma NoDup_sublist_app (l l' k : list Z) :
  l `sublist_of` l' → NoDup (l' ++ k) → NoDup (l ++ k).
Proof.
  intros Hs Hnd. eapply sublist_NoDup; [exact Hnd |]. by apply sublist_app.
Qed.

Lemma run_ids_distinct (ops : list op) (st : AppState) :
  NoDup ((id <$> todos st) ++ appended_ids ops) →
  NoDup (id <$> todos (run ops st)).
Proof.
  revert st. induction ops as [|o ops IH]; intros st H; simpl.
  - by rewrite app_nil_r in H.
  - apply IH.
    destruct (ids_step_sublist o st) as (l & -> & Hl).
    destruct o as [t n ni nd | i | i]; simpl in *.
    + destruct (non_blank t && non_blank n); simpl.
      * rewrite <- app_assoc. simpl. by eapply NoDup_sublist_app.
      * rewrite app_nil_r. by eapply NoDup_sublist_app.
    + rewrite app_nil_r. by eapply NoDup_sublist_app.
    + rewrite app_nil_r. by eapply NoDup_sublist_app.
Qed.

End Session.

(** C9, as amended. In every state reached from the empty collection by a
    sequence of Add, Toggle and Delete, the records have pairwise distinct
    identifiers, provided the clock readings of the Adds that append a
    record are pairwise distinct. *)
Theorem session_ids_distinct (ops : list op) :
  NoDup (appended_ids ops) →
  NoDup (id <$> todos (run ops empty_session)).
Proof. intros H. by apply run_ids_distinct. Qed.

Lemma session_ids_distinct_witness :
  NoDup (id <$> todos (run [OpAdd (js "Buy milk") (js "2 liters") 5 5;
                            OpToggle 5;
                            OpAdd (js "Buy bread") (js "sliced") 6 6;
                            OpDelete 5;
                            OpAdd (js "") (js "ignored") 6 7]
                           empty_session)).
Proof.
  apply session_ids_distinct.
  apply (bool_decide_unpack _). vm_compute. exact I.
Defined.

(** C9, as stated, fails: two Adds that read the same clock value leave two
    records with one identifier. *)
Lemma session_ids_collide :
  todos (run [OpAdd (js "a") (js "b") 5 5; OpAdd (js "c") (js "d") 5 5]
             empty_session)
  = [mkTodo 5 (js "a") (js "b") false (Some 5);
     mkTodo 5 (js "c") (js "d") false (Some 5)]
  ∧ ¬ NoDup (id <$> todos (run [OpAdd (js "a") (js "b") 5 5;
                                OpAdd (js "c") (js "d") 5 5]
                               empty_session)).
Proof.
  split; [reflexivity |].
  intros H. apply NoDup_cons in H as [H _]. apply H. left.
Qed.

(** The scenario of the specification: add one task, complete it, delete
    it. *)
Example scenario_buy_milk :
  todos (Add (js "Buy milk") (js "2 liters") 1700000000000 1700000000000
           empty_session) = [milk]
  ∧ todos (run [OpAdd (js "Buy milk") (js "2 liters") 1700000000000 1700000000000;
                OpToggle 1700000000000] empty_session) = [flipped milk]
  ∧ todos (run [OpAdd (js "Buy milk") (js "2 liters") 1700000000000 1700000000000;
                OpToggle 1700000000000;
                OpDelete 1700000000000] empty_session) = [].
Proof. repeat split. Qed.

(* ===================================================================== *)
(** * Records that share an identifier *)
(* ===================================================================== *)

Section Twins.

Lemma count_changed_toggle (i : Z) (l : list Todo) :
  count_changed l (toggle_one i <$> l) = length (matching i l).
Proof.
  unfold count_changed, matching.
  induction l as [|r l IH]; [done |].
  change (zip (r :: l) (toggle_one i <$> r :: l))
    with ((r, toggle_one i r) :: zip l (toggle_one i <$> l)).
  destruct (decide (id r = i)) as [Hi | Hi].
  - rewrite toggle_one_match by done.
    rewrite filter_cons_True
      by (simpl; intros H; by apply (flipped_neq r)).
    rewrite (filter_cons_True (λ todo, id todo = i)) by done.
    simpl. by rewrite IH.
  - rewrite toggle_one_other by done.
    rewrite filter_cons_False by (simpl; intros H; by apply H).
    by rewrite (filter_cons_False (λ todo, id todo = i)).
Qed.

Lemma length_delete (i : Z) (l : list Todo) :
  (length (filter (λ todo, id todo ≠ i) l) + length (matching i l))%nat
  = length l.
Proof.
  unfold matching. induction l as [|r l IH]; [done |].
  destruct (decide (id r = i)) as [Hi | Hi].
  - rewrite filter_cons_False by (intros H; by apply H).
    rewrite (filter_cons_True (λ todo, id todo = i)) by done.
    simpl. lia.
  - rewrite filter_cons_True by done.
    rewrite (filter_cons_False (λ todo, id todo = i)) by done.
    simpl. lia.
Qed.

End Twins.

(** C10. [Toggle(id)] flips every record whose identifier matches and
    [Delete(id)] removes every record whose identifier matches: the number
    of records changed by Toggle, and the number removed by Delete, is the
    number of matching records, so with two or more records sharing the
    identifier neither acts on a single one. *)
Theorem toggle_delete_act_on_every_match (st : AppState) (i : Z) :
  (2 ≤ length (matching i (todos st)))%nat →
  (∀ (k : nat) (r : Todo), todos st !! k = Some r → id r = i →
     todos (Toggle i st) !! k = Some (flipped r))
  ∧ count_changed (todos st) (todos (Toggle i st)) = length (matching i (todos st))
  ∧ (2 ≤ count_changed (todos st) (todos (Toggle i st)))%nat
  ∧ (∀ r, r ∈ todos (Delete i st) → id r ≠ i)
  ∧ (length (todos (Delete i st)) + length (matching i (todos st)))%nat
    = length (todos st)
  ∧ (length (todos (Delete i st)) + 2 ≤ length (todos st))%nat.
Proof.
  intros Htwo. unfold Toggle, toggleTodo, Delete, deleteTodo. simpl.
  pose proof (count_changed_toggle i (todos st)) as Hc.
  pose proof (length_delete i (todos st)) as Hd.
  split; [| split; [| split; [| split; [| split]]]]; try done; try lia.
  - intros k r Hk Hi. rewrite list_lookup_fmap, Hk. simpl.
    by rewrite toggle_one_match.
  - intros r Hr. by apply list_elem_of_filter in Hr as [? _].
Qed.

Lemma toggle_delete_act_on_every_match_witness :
  todos (Toggle 1700000000000 twin_tasks) !! 0%nat = Some (flipped milk)
  ∧ todos (Toggle 1700000000000 twin_tasks) !! 2%nat = Some (flipped milk_again)
  ∧ (length (todos (Delete 1700000000000 twin_tasks)) + 2 ≤ 3)%nat.
Proof.
  destruct (toggle_delete_act_on_every_match twin_tasks 1700000000000)
    as (Hflip & _ & _ & _ & _ & Hlen).
  - vm_compute. lia.
  - split; [| split].
    + apply (Hflip 0%nat milk); reflexivity.
    + apply (Hflip 2%nat milk_again); reflexivity.
    + exact Hlen.
Defined.

(* ===================================================================== *)
(** * Display order *)
(* ===================================================================== *)

Section DisplayOrder.






End DisplayOrder.

Section Stable.

Implicit Types (l : list Todo) (k : Z).






End Stable.

Section ThreeRecords.

Variables (a b c : Todo) (t1 t2 t3 : Z).
Hypothesis Ha : dateCreated a = Some t1.
Hypothesis Hb : dateCreated b = Some t2.
Hypothesis Hc : dateCreated c = Some t3.
Hypothesis H12 : t1 < t2.
Hypothesis H23 : t2 < t3.



End ThreeRecords.




Section Aliasing.

Lemma array_spread_fresh (h : heap) (src : loc) :
  h !! (array_spread h src).2 = None.
Proof.
  unfold array_spread. simpl.
  apply not_elem_of_dom. apply is_fresh.
Qed.

(** What the spread buys: sorting the state array itself would rearrange
    the stored collection. *)
Remark sort_in_place_rearranges :
  (array_sort_in_place compareTodos {[ 1%positive := [milk; bread] ]} 1).1
    !! 1%positive
  = Some [bread; milk].
Proof. reflexivity. Qed.

End Aliasing.

(** C6. Computing the display order leaves the stored collection as it was:
    the array of [todos] holds the same records in the same insertion order
    afterwards, the sorted view is another array, and no array that existed
    before is modified. *)
Theorem display_order_leaves_collection
    (h : heap) (todos_ref : loc) (l : list Todo) :
  h !! todos_ref = Some l →
  (sortedTodos_on_heap h todos_ref).1 !! todos_ref = Some l
  ∧ (sortedTodos_on_heap h todos_ref).2 ≠ todos_ref
  ∧ (sortedTodos_on_heap h todos_ref).1 !! (sortedTodos_on_heap h todos_ref).2
    = Some (sortedTodos l)
  ∧ (∀ r, is_Some (h !! r) →
       (sortedTodos_on_heap h todos_ref).1 !! r = h !! r).
Proof.
  intros Hl.
  pose proof (array_spread_fresh h todos_ref) as Hfresh.
  unfold sortedTodos_on_heap, array_sort_in_place, array_spread in *.
  simpl in *.
  set (copy := fresh (dom h)) in *.
  assert (Hne : copy ≠ todos_ref) by (intros ->; congruence).
  split; [| split; [| split]].
  - rewrite lookup_alter_ne by done. by rewrite lookup_insert_ne.
  - done.
  - rewrite lookup_alter_eq, lookup_insert_eq, Hl. done.
  - intros r [x Hr].
    assert (copy ≠ r) by (intros ->; congruence).
    rewrite lookup_alter_ne by done. by rewrite lookup_insert_ne.
Qed.

Lemma display_order_leaves_collection_witness :
  (sortedTodos_on_heap {[ 1%positive := [milk; bread; eggs] ]} 1).1 !! 1%positive
  = Some [milk; bread; eggs]
  ∧ (sortedTodos_on_heap {[ 1%positive := [milk; bread; eggs] ]} 1).1
      !! (sortedTodos_on_heap {[ 1%positive := [milk; bread; eggs] ]} 1).2
    = Some [eggs; bread; milk].
Proof.
  destruct (display_order_leaves_collection
              {[ 1%positive := [milk; bread; eggs] ]} 1 [milk; bread; eggs])
    as (Hsame & _ & Hview & _); [reflexivity |].
  split; [exact Hsame | exact Hview].
Defined.

(* ===================================================================== *)
(** * Persistence *)
(* ===================================================================== *)

(** ** Numbers as text *)

Section Digits.

Lemma digit_char (q : Z) :
  0 ≤ q ≤ 9 →
  is_digit (Z.to_N (48 + q)) = true ∧ Z.of_N (Z.to_N (48 + q)) - 48 = q.
Proof.
  intros Hq. unfold is_digit. split.
  - apply andb_true_iff. split; apply N.leb_le; lia.
  - lia.
Qed.

Lemma pow10_pos (k : nat) : 0 < 10 ^ Z.of_nat k.
Proof. apply Z.pow_pos_nonneg; lia. Qed.

Lemma pow10_succ (k : nat) : 10 ^ Z.of_nat (S k) = 10 * 10 ^ Z.of_nat k.
Proof. rewrite Nat2Z.inj_succ, Z.pow_succ_r; lia. Qed.

Lemma leading_digit (k : nat) (n : Z) :
  0 ≤ n < 10 ^ Z.of_nat (S k) →
  0 ≤ n / 10 ^ Z.of_nat k ≤ 9 ∧ 0 ≤ n mod 10 ^ Z.of_nat k < 10 ^ Z.of_nat k.
Proof.
  intros Hn. rewrite pow10_succ in Hn.
  pose proof (pow10_pos k) as Hp.
  split.
  - split; [apply Z.div_pos; lia |].
    assert (n / 10 ^ Z.of_nat k < 10); [| lia].
    apply Z.div_lt_upper_bound; lia.
  - apply Z.mod_pos_bound. lia.
Qed.

Lemma read_digits_digits (k : nat) (n acc : Z) (rest : jsstring) :
  0 ≤ n < 10 ^ Z.of_nat k →
  read_digits k acc (digits k n ++ rest)
  = Some (acc * 10 ^ Z.of_nat k + n, rest).
Proof.
  revert n acc. induction k as [|k IH]; intros n acc Hn.
  - simpl in *. f_equal. f_equal. lia.
  - destruct (leading_digit k n Hn) as [Hq Hr].
    destruct (digit_char _ Hq) as [Hc Hv].
    cbn [digits read_digits app]. rewrite Hc, Hv.
    rewrite IH by done. f_equal. f_equal.
    rewrite pow10_succ.
    pose proof (Z.div_mod n (10 ^ Z.of_nat k)) as Hdm.
    pose proof (pow10_pos k). lia.
Qed.

Lemma read_digit_run_digits (k : nat) (n acc count : Z) (rest : jsstring) :
  0 ≤ n < 10 ^ Z.of_nat k →
  read_digit_run acc count (digits k n ++ rest)
  = read_digit_run (acc * 10 ^ Z.of_nat k + n) (count + Z.of_nat k) rest.
Proof.
  revert n acc count. induction k as [|k IH]; intros n acc count Hn.
  - simpl in *. f_equal; lia.
  - destruct (leading_digit k n Hn) as [Hq Hr].
    destruct (digit_char _ Hq) as [Hc Hv].
    cbn [digits read_digit_run app]. rewrite Hc, Hv.
    rewrite IH by done. f_equal.
    + rewrite pow10_succ.
      pose proof (Z.div_mod n (10 ^ Z.of_nat k)) as Hdm.
      pose proof (pow10_pos k). lia.
    + lia.
Qed.

Lemma count_digits_spec (fuel : nat) (n : Z) :
  0 < n → Z.log2 n ≤ Z.of_nat fuel →
  10 ^ Z.of_nat (count_digits fuel n - 1) ≤ n < 10 ^ Z.of_nat (count_digits fuel n).
Proof.
  revert n. induction fuel as [|f IH]; intros n Hn Hlog.
  - assert (Z.log2 n = 0) as H0 by (pose proof (Z.log2_nonneg n); lia).
    assert (n < 2 ^ 1) by (apply Z.log2_lt_pow2; lia).
    simpl. lia.
  - cbn [count_digits]. destruct (Z.ltb_spec n 10) as [Hlt | Hge].
    + simpl. lia.
    + assert (Hq : 0 < n / 10) by (apply Z.div_str_pos; lia).
      assert (Hl : Z.log2 (n / 10) ≤ Z.of_nat f).
      { assert (Z.log2 (n / 10) < Z.log2 n); [| lia].
        apply Z.log2_lt_pow2; [done |].
        pose proof (Z.log2_spec n Hn) as [Hlo Hhi].
        rewrite Z.pow_succ_r in Hhi by apply Z.log2_nonneg.
        apply Z.div_lt_upper_bound; lia. }
      specialize (IH _ Hq Hl).
      assert (Hc : (1 ≤ count_digits f (n / 10))%nat).
      { destruct f; simpl; [lia |]. destruct (_ <? _); lia. }
      replace (S (count_digits f (n / 10)) - 1)%nat
        with (S (count_digits f (n / 10) - 1))%nat by lia.
      rewrite !pow10_succ.
      pose proof (Z.div_mod n 10). 
      pose proof (Z.mod_pos_bound n 10).
      lia.
Qed.

Lemma count_digits_pos (fuel : nat) (n : Z) : (1 ≤ count_digits fuel n)%nat.
Proof. destruct fuel; simpl; [lia |]. destruct (_ <? _); lia. Qed.

Lemma read_number_natural (m : Z) (negative : bool) (r : jsstring) :
  0 ≤ m →
  let text := digits (count_digits (Z.to_nat (Z.log2 m)) m) m in
  match text ++ 44%N :: r with
  | c :: s2 =>
      if is_digit c then
        let '(int_part, s3) :=
          if (c =? 48)%N then (0, s2)
          else let '(i, _, r) := read_digit_run (Z.of_N c - 48) 1 s2 in (i, r) in
        '(m, n, s4) ← read_fraction int_part s3;
        '(e, rest) ← read_exponent s4;
        Some (JNum (if negative then - m else m) (e - n), rest)
      else None
  | [] => None
  end = Some (JNum (if negative then - m else m) 0, 44%N :: r).
Proof.
  intros Hm text. subst text.
  destruct (decide (m = 0)) as [-> | Hne].
  - reflexivity.
  - assert (Hpos : 0 < m) by lia.
    pose proof (count_digits_spec (Z.to_nat (Z.log2 m)) m Hpos) as Hc.
    pose proof (count_digits_pos (Z.to_nat (Z.log2 m)) m) as Hk.
    pose proof (Z.log2_nonneg m).
    destruct (count_digits (Z.to_nat (Z.log2 m)) m) as [|k]; [lia |].
    replace (S k - 1)%nat with k in Hc by lia.
    specialize (Hc ltac:(lia)).
    destruct (leading_digit k m ltac:(lia)) as [Hq Hr].
    assert (Hq1 : 1 ≤ m / 10 ^ Z.of_nat k).
    { apply Z.div_le_lower_bound; [apply pow10_pos | lia]. }
    destruct (digit_char _ Hq) as [Hd Hv].
    cbn [digits app]. rewrite Hd.
    replace (Z.to_N (48 + m / 10 ^ Z.of_nat k) =? 48)%N with false
      by (symmetry; apply N.eqb_neq; lia).
    rewrite Hv, read_digit_run_digits by done.
    cbn [read_digit_run is_digit N.leb N.compare Pos.compare
         Pos.compare_cont andb].
    replace (m / 10 ^ Z.of_nat k * 10 ^ Z.of_nat k + m mod 10 ^ Z.of_nat k)
      with m.
    + simpl. by rewrite Z.sub_0_r.
    + pose proof (Z.div_mod m (10 ^ Z.of_nat k)). pose proof (pow10_pos k). lia.
Qed.

Lemma read_minus_digit (c : N) (s : jsstring) :
  is_digit c = true → read_minus (c :: s) = (false, c :: s).
Proof.
  unfold is_digit, read_minus. intros H.
  apply andb_true_iff in H as [H _]. apply N.leb_le in H.
  replace (c =? 45)%N with false; [done |].
  symmetry. apply N.eqb_neq. lia.
Qed.

Lemma read_number_toString (n : Z) (r : jsstring) :
  read_number (Number_toString n ++ 44%N :: r) = Some (JNum n 0, 44%N :: r).
Proof.
  unfold Number_toString, read_number.
  destruct (Z.ltb_spec n 0) as [Hneg | Hpos].
  - cbn [app read_minus N.eqb Pos.eqb].
    rewrite (read_number_natural (Z.abs n) true r) by lia.
    do 3 f_equal. lia.
  - pose proof (read_number_natural (Z.abs n) false r ltac:(lia)) as Hnat.
    cbv zeta in Hnat.
    pose proof (count_digits_pos (Z.to_nat (Z.log2 (Z.abs n))) (Z.abs n)) as Hk.
    pose proof (count_digits_spec (Z.to_nat (Z.log2 (Z.abs n))) (Z.abs n)) as Hc.
    destruct (count_digits _ _) as [|k]; [lia |].
    cbn [digits app] in *.
    rewrite read_minus_digit.
    + rewrite Hnat. do 3 f_equal. lia.
    + apply digit_char.
      destruct (decide (Z.abs n = 0)) as [-> | Hne].
      * rewrite Z.div_0_l; [lia |]. pose proof (pow10_pos k); lia.
      * pose proof (Z.log2_nonneg (Z.abs n)).
        apply (leading_digit k). specialize (Hc ltac:(lia) ltac:(lia)). lia.
Qed.

End Digits.

(** ** Strings as text *)

Section Strings.

Lemma hex_value_digit (n : N) : (n < 16)%N → hex_value (hex_digit n) = Some n.
Proof.
  intros Hn. unfold hex_value, hex_digit.
  destruct (N.ltb_spec n 10).
  - replace ((48 <=? 48 + n) && (48 + n <=? 57))%N with true.
    + f_equal. lia.
    + symmetry. apply andb_true_iff. split; apply N.leb_le; lia.
  - replace ((48 <=? 87 + n) && (87 + n <=? 57))%N with false.
    + replace ((97 <=? 87 + n) && (87 + n <=? 102))%N with true.
      * f_equal. lia.
      * symmetry. apply andb_true_iff. split; apply N.leb_le; lia.
    + symmetry. apply andb_false_iff. right. apply N.leb_gt. lia.
Qed.

Lemma read_unicode_escape (c : N) (tail : jsstring) :
  (c < 65536)%N →
  read_string (unicode_escape c ++ tail)
  = match read_string tail with
    | Some (r, rest) => Some (c :: r, rest)
    | None => None
    end.
Proof.
  intros Hc. unfold unicode_escape.
  cbn [app read_string N.eqb Pos.eqb].
  rewrite !hex_value_digit.
  - destruct (read_string tail) as [[r rest]|]; [| done].
    do 3 f_equal.
    pose proof (N.div_mod c 16).
    pose proof (N.div_mod (c / 16) 16).
    pose proof (N.div_mod (c / 256) 16).
    pose proof (N.mod_lt c 16). pose proof (N.mod_lt (c / 16) 16).
    pose proof (N.mod_lt (c / 256) 16).
    replace (c / 256)%N with (c / 16 / 16)%N in * by (rewrite N.Div0.div_div; done).
    replace (c / 4096)%N with (c / 16 / 16 / 16)%N by (rewrite !N.Div0.div_div; done).
    pose proof (N.div_mod (c / 16 / 16) 16).
    assert (c / 16 / 16 / 16 < 16)%N.
    { rewrite !N.Div0.div_div by done. apply N.Div0.div_lt_upper_bound. simpl. lia. }
    lia.
  - apply N.mod_lt. done.
  - apply N.mod_lt. done.
  - apply N.mod_lt. done.
  - apply N.Div0.div_lt_upper_bound. simpl. lia.
Qed.

Lemma read_string_literal (c : N) (tail : jsstring) :
  c ≠ 34%N → c ≠ 92%N → (32 ≤ c)%N →
  read_string (c :: tail)
  = match read_string tail with
    | Some (r, rest) => Some (c :: r, rest)
    | None => None
    end.
Proof.
  intros H34 H92 H32. cbn [read_string].
  apply N.eqb_neq in H34, H92. rewrite H34, H92.
  replace (c <? 32)%N with false by (symmetry; apply N.ltb_ge; lia).
  done.
Qed.

Lemma read_string_quote_unit (c : N) (tail : jsstring) :
  read_string (quote_unit c ++ tail)
  = match read_string tail with
    | Some (r, rest) => Some (c :: r, rest)
    | None => None
    end.
Proof.
  unfold quote_unit.
  repeat match goal with
         | |- context [(c =? ?k)%N] =>
             destruct (N.eqb_spec c k) as [-> | ?]; [reflexivity |]
         end.
  destruct ((c <? 32)%N || is_high_surrogate c || is_low_surrogate c) eqn:He.
  - apply read_unicode_escape.
    unfold is_high_surrogate, is_low_surrogate in He.
    repeat (apply orb_true_iff in He as [He | He]).
    + apply N.ltb_lt in He. lia.
    + apply andb_true_iff in He as [_ He]. apply N.leb_le in He. lia.
    + apply andb_true_iff in He as [_ He]. apply N.leb_le in He. lia.
  - apply orb_false_iff in He as [He _]. apply orb_false_iff in He as [He _].
    apply N.ltb_ge in He. by apply read_string_literal.
Qed.

Lemma surrogate_literal (c : N) :
  is_high_surrogate c = true ∨ is_low_surrogate c = true →
  c ≠ 34%N ∧ c ≠ 92%N ∧ (32 ≤ c)%N.
Proof.
  unfold is_high_surrogate, is_low_surrogate.
  intros [H | H]; apply andb_true_iff in H as [H _]; apply N.leb_le in H; lia.
Qed.

Lemma read_string_quote_units_aux (n : nat) (s rest : jsstring) :
  (length s ≤ n)%nat →
  read_string (quote_units s ++ 34%N :: rest) = Some (s, rest).
Proof.
  revert s. induction n as [|n IH]; intros s Hlen.
  - destruct s; [reflexivity | simpl in Hlen; lia].
  - destruct s as [|c s]; [reflexivity |].
    cbn [quote_units].
    destruct (is_high_surrogate c) eqn:Hh.
    + destruct s as [|d s].
      * rewrite read_string_quote_unit. reflexivity.
      * destruct (is_low_surrogate d) eqn:Hl.
        -- destruct (surrogate_literal c) as (? & ? & ?); [by left |].
           destruct (surrogate_literal d) as (? & ? & ?); [by right |].
           cbn [app]. rewrite !read_string_literal by done.
           rewrite IH by (simpl in *; lia). done.
        -- rewrite <- app_assoc, read_string_quote_unit.
           rewrite IH by (simpl in *; lia). done.
    + rewrite <- app_assoc, read_string_quote_unit.
      rewrite IH by (simpl in *; lia). done.
Qed.

Lemma read_string_quote_units (s rest : jsstring) :
  read_string (quote_units s ++ 34%N :: rest) = Some (s, rest).
Proof. by apply (read_string_quote_units_aux (length s)). Qed.

End Strings.

(** ** Dates as text *)

Section Calendar.

Lemma YearFromDay_spec (day : Z) :
  DayFromYear (YearFromDay day) ≤ day < DayFromYear (YearFromDay day + 1).
Proof.
  unfold YearFromDay.
  set (y := 1970 + 400 * day / 146097).
  assert (Hy : DayFromYear (y - 1) ≤ day < DayFromYear (y + 2)).
  { subst y. unfold DayFromYear. Z.div_mod_to_equations. lia. }
  destruct (Z.ltb_spec day (DayFromYear y)).
  - replace (y - 1 + 1) with y by lia. lia.
  - destruct (Z.leb_spec (DayFromYear (y + 1)) day).
    + replace (y + 1 + 1) with (y + 2) by lia. lia.
    + lia.
Qed.

Lemma days_in_year (y : Z) :
  DayFromYear (y + 1) - DayFromYear y = 365 + (if InLeapYear y then 1 else 0).
Proof.
  unfold DayFromYear, InLeapYear.
  destruct (Z.eqb_spec (y mod 4) 0); destruct (Z.eqb_spec (y mod 100) 0);
    destruct (Z.eqb_spec (y mod 400) 0); cbn [andb orb negb];
    Z.div_mod_to_equations; lia.
Qed.

Lemma month_of_day_in_year_spec (leap : bool) (d : Z) :
  0 ≤ d < 365 + (if leap then 1 else 0) →
  let m := month_of_day_in_year leap d in
  1 ≤ m ≤ 12
  ∧ days_before_month leap m ≤ d < days_before_month leap (m + 1).
Proof.
  intros Hd. unfold month_of_day_in_year.
  destruct leap;
    repeat match goal with
           | |- context [?a <? ?b] => destruct (Z.ltb_spec a b)
           end; cbn in *; simpl; lia.
Qed.

Lemma month_length_bound (leap : bool) (m : Z) :
  1 ≤ m ≤ 12 →
  28 ≤ days_before_month leap (m + 1) - days_before_month leap m ≤ 31.
Proof.
  intros Hm.
  assert (m = 1 ∨ m = 2 ∨ m = 3 ∨ m = 4 ∨ m = 5 ∨ m = 6 ∨ m = 7 ∨ m = 8
          ∨ m = 9 ∨ m = 10 ∨ m = 11 ∨ m = 12) as Hcases by lia.
  destruct leap; repeat (destruct Hcases as [-> | Hcases]); subst; simpl; lia.
Qed.

Lemma year_of_valid_day (day : Z) :
  -100000000 ≤ day ≤ 100000000 →
  -271821 ≤ YearFromDay day ≤ 275760.
Proof.
  intros Hd. pose proof (YearFromDay_spec day) as Hy.
  set (y := YearFromDay day) in *.
  unfold DayFromYear in Hy. Z.div_mod_to_equations. lia.
Qed.

Lemma read_iso_year_iso_year (y : Z) (rest : jsstring) :
  -999999 ≤ y ≤ 999999 →
  read_iso_year (iso_year y ++ rest) = Some (y, rest).
Proof.
  intros Hy. unfold iso_year, read_iso_year.
  destruct (Z.leb_spec 0 y) as [H0 | H0]; cbn [andb].
  - destruct (Z.leb_spec y 9999) as [H1 | H1].
    + pose proof (read_digits_digits 4 y 0 rest ltac:(simpl; lia)) as Hr.
      destruct (leading_digit 3 y ltac:(simpl; lia)) as [Hq _].
      destruct (digit_char _ Hq) as [Hd _].
      cbn [digits app] in *.
      unfold is_digit in Hd. apply andb_true_iff in Hd as [Hd _].
      apply N.leb_le in Hd.
      replace (_ =? 43)%N with false by (symmetry; apply N.eqb_neq; lia).
      replace (_ =? 45)%N with false by (symmetry; apply N.eqb_neq; lia).
      rewrite Hr. do 2 f_equal.
    + replace (y <? 0) with false by (symmetry; apply Z.ltb_ge; lia).
      cbn [app N.eqb Pos.eqb].
      rewrite read_digits_digits by (simpl; lia).
      do 2 f_equal. lia.
  - replace (y <? 0) with true by (symmetry; apply Z.ltb_lt; lia).
    cbn [app N.eqb Pos.eqb].
    rewrite read_digits_digits by (simpl; lia).
    replace (0 * 10 ^ Z.of_nat 6 + Z.abs y =? 0) with false
      by (symmetry; apply Z.eqb_neq; lia).
    do 2 f_equal. lia.
Qed.

Lemma TimeClip_valid (t : Z) : valid_time t → TimeClip t = Some t.
Proof.
  unfold valid_time, TimeClip. intros [H1 H2].
  apply Z.leb_le in H1, H2. by rewrite H1, H2.
Qed.

(** [Date.parse] reads back what [toISOString] writes. *)
Lemma parse_iso_date_time_toISOString (t : Z) :
  valid_time t → parse_iso_date_time (Date_toISOString t) = Some (Some t).
Proof.
  intros Ht. pose proof Ht as Hrange. unfold valid_time, max_time in Hrange.
  unfold Date_toISOString, parse_iso_date_time.
  set (day := t / msPerDay).
  set (ms := t mod msPerDay).
  set (y := YearFromDay day).
  set (leap := InLeapYear y).
  set (diy := day - DayFromYear y).
  set (m := month_of_day_in_year leap diy).
  set (d := diy - days_before_month leap m + 1).
  assert (Hday : -100000000 ≤ day ≤ 100000000).
  { subst day. unfold msPerDay. Z.div_mod_to_equations. lia. }
  assert (Hms : 0 ≤ ms < 86400000).
  { subst ms. unfold msPerDay. apply Z.mod_pos_bound. lia. }
  assert (Ht' : t = day * msPerDay + ms).
  { subst day ms. unfold msPerDay. pose proof (Z.div_mod t 86400000). lia. }
  pose proof (year_of_valid_day day Hday) as Hy. fold y in Hy.
  pose proof (YearFromDay_spec day) as Hspec. fold y in Hspec.
  pose proof (days_in_year y) as Hlen. fold leap in Hlen.
  assert (Hdiy : 0 ≤ diy < 365 + (if leap then 1 else 0)) by (subst diy; lia).
  destruct (month_of_day_in_year_spec leap diy Hdiy) as [Hm Hd]. fold m in Hm, Hd.
  pose proof (month_length_bound leap m Hm) as Hml.
  assert (Hd' : 1 ≤ d ≤ days_before_month leap (m + 1) - days_before_month leap m)
    by (subst d; lia).
  rewrite read_iso_year_iso_year by lia.
  cbn [mbind option_bind app expect N.eqb Pos.eqb].
  rewrite read_digits_digits by (simpl; lia).
  cbn [mbind option_bind app expect N.eqb Pos.eqb].
  rewrite read_digits_digits by (simpl; lia).
  cbn [mbind option_bind app expect N.eqb Pos.eqb].
  rewrite read_digits_digits
    by (simpl; split; [apply Z.div_pos; lia | apply Z.div_lt_upper_bound; lia]).
  cbn [mbind option_bind app expect N.eqb Pos.eqb].
  rewrite read_digits_digits
    by (simpl; pose proof (Z.mod_pos_bound (ms / 60000) 60); lia).
  cbn [mbind option_bind app expect N.eqb Pos.eqb].
  rewrite read_digits_digits
    by (simpl; pose proof (Z.mod_pos_bound (ms / 1000) 60); lia).
  cbn [mbind option_bind app expect N.eqb Pos.eqb].
  rewrite read_digits_digits
    by (simpl; pose proof (Z.mod_pos_bound ms 1000); lia).
  cbn [mbind option_bind app expect N.eqb Pos.eqb].
  rewrite !Z.mul_0_l, !Z.add_0_l.
  assert (Hhh : 0 ≤ ms / 3600000 ≤ 23).
  { split; [apply Z.div_pos; lia |].
    assert (ms / 3600000 < 24); [apply Z.div_lt_upper_bound; lia | lia]. }
  pose proof (Z.mod_pos_bound (ms / 60000) 60 ltac:(lia)) as Hmm.
  pose proof (Z.mod_pos_bound (ms / 1000) 60 ltac:(lia)) as Hss.
  fold leap.
  replace ((1 <=? m) && (m <=? 12) && (1 <=? d)
           && (d <=? days_before_month leap (m + 1) - days_before_month leap m)
           && ((ms / 3600000 <=? 23)
               || (ms / 3600000 =? 24) && (ms / 60000 mod 60 =? 0)
                  && (ms / 1000 mod 60 =? 0) && (ms mod 1000 =? 0))
           && (ms / 60000 mod 60 <=? 59) && (ms / 1000 mod 60 <=? 59))
    with true.
  - do 2 f_equal.
    replace ((DayFromYear y + days_before_month leap m + d - 1) * msPerDay
             + (ms / 3600000 * 3600000 + ms / 60000 mod 60 * 60000
                + ms / 1000 mod 60 * 1000 + ms mod 1000))
      with t; [by apply TimeClip_valid |].
    rewrite Ht' at 1. subst d diy.
    replace (DayFromYear y + days_before_month leap m
             + (day - DayFromYear y - days_before_month leap m + 1) - 1)
      with day by lia.
    f_equal. clear -Hms. Z.div_mod_to_equations. lia.
  - symmetry. repeat (apply andb_true_iff; split); try (apply Z.leb_le; lia).
    apply orb_true_iff. left. apply Z.leb_le. lia.
Qed.

End Calendar.

(** ** The fuel of the reader *)

Section Fuel.

Local Open Scope nat_scope.

Lemma skip_ws_length (s : jsstring) : length (skip_ws s) ≤ length s.
Proof.
  induction s as [|c s IH]; simpl; [lia |].
  destruct (is_json_space c); simpl; lia.
Qed.

Lemma expect_Some (c : N) (s s' : jsstring) :
  expect c s = Some s' → s = c :: s'.
Proof.
  destruct s as [|c' s0]; simpl; [done |].
  destruct (N.eqb_spec c' c); [| done]. by intros [= ->]; subst.
Qed.

Lemma expect_skip_length (c : N) (s s' : jsstring) :
  expect c (skip_ws s) = Some s' → length s' < length s.
Proof.
  intros Hs. apply expect_Some in Hs.
  pose proof (skip_ws_length s) as Hl. rewrite Hs in Hl. simpl in Hl. lia.
Qed.

Lemma expect_all_length (word s s' : jsstring) :
  expect_all word s = Some s' → length s' ≤ length s.
Proof.
  revert s. induction word as [|c word IH]; intros s; simpl.
  - intros [= ->]. lia.
  - destruct (expect c s) as [s1|] eqn:He; [| done].
    apply expect_Some in He as ->. intros Hs. apply IH in Hs. simpl. lia.
Qed.

Lemma read_string_length_aux (n : nat) (s r rest : jsstring) :
  length s ≤ n → read_string s = Some (r, rest) → length rest < length s.
Proof.
  revert s r rest. induction n as [|n IH]; intros s r rest Hn.
  - destruct s; [done | simpl in Hn; lia].
  - destruct s as [|c s1]; [done |]. cbn [read_string].
    destruct (c =? 34)%N.
    { intros [= <- <-]. simpl. lia. }
    destruct (c =? 92)%N.
    + destruct s1 as [|e s2]; [done |].
      destruct (e =? 117)%N.
      * destruct s2 as [|h1 [|h2 [|h3 [|h4 s3]]]]; try done.
        destruct (hex_value h1), (hex_value h2), (hex_value h3), (hex_value h4);
          try done.
        destruct (read_string s3) as [[r' rest']|] eqn:Hr; [| done].
        intros [= <- <-]. apply IH in Hr; simpl in *; lia.
      * destruct (simple_escape e); [| done].
        destruct (read_string s2) as [[r' rest']|] eqn:Hr; [| done].
        intros [= <- <-]. apply IH in Hr; simpl in *; lia.
    + destruct (c <? 32)%N; [done |].
      destruct (read_string s1) as [[r' rest']|] eqn:Hr; [| done].
      intros [= <- <-]. apply IH in Hr; simpl in *; lia.
Qed.

Lemma read_string_length (s r rest : jsstring) :
  read_string s = Some (r, rest) → length rest < length s.
Proof. by apply (read_string_length_aux (length s)). Qed.

Lemma read_digit_run_length (acc count : Z) (s : jsstring) :
  length (read_digit_run acc count s).2 ≤ length s.
Proof.
  revert acc count. induction s as [|c s IH]; intros acc count; simpl; [lia |].
  destruct (is_digit c); simpl; [| lia].
  specialize (IH (10 * acc + (Z.of_N c - 48))%Z (count + 1)%Z). lia.
Qed.

Lemma read_fraction_length (i : Z) (s : jsstring) (m n : Z) (rest : jsstring) :
  read_fraction i s = Some (m, n, rest) → length rest ≤ length s.
Proof.
  unfold read_fraction.
  destruct (expect 46 s) as [s1|] eqn:He.
  - apply expect_Some in He as ->.
    pose proof (read_digit_run_length i 0 s1) as Hl.
    destruct (read_digit_run i 0 s1) as [[m' n'] rest'].
    destruct (n' =? 0)%Z; [done |]. intros [= <- <- <-]. simpl in *. lia.
  - intros [= <- <- <-]. lia.
Qed.

Lemma read_exponent_length (s : jsstring) (e : Z) (rest : jsstring) :
  read_exponent s = Some (e, rest) → length rest ≤ length s.
Proof.
  unfold read_exponent. destruct s as [|c s1]; [by intros [= <- <-] |].
  destruct ((c =? 101)%N || (c =? 69)%N); [| by intros [= <- <-]].
  assert (Hs2 : length (match expect 43 s1, expect 45 s1 with
                        | Some s', _ => (false, s')
                        | None, Some s' => (true, s')
                        | None, None => (false, s1)
                        end).2 ≤ length s1).
  { destruct (expect 43 s1) as [s'|] eqn:H43.
    - apply expect_Some in H43 as ->. simpl. lia.
    - destruct (expect 45 s1) as [s'|] eqn:H45.
      + apply expect_Some in H45 as ->. simpl. lia.
      + simpl. lia. }
  destruct (match expect 43 s1, expect 45 s1 with
            | Some s', _ => (false, s')
            | None, Some s' => (true, s')
            | None, None => (false, s1)
            end) as [negative s2].
  simpl in Hs2.
  pose proof (read_digit_run_length 0 0 s2) as Hl.
  destruct (read_digit_run 0 0 s2) as [[e' n'] rest'].
  destruct (n' =? 0)%Z; [done |]. intros [= <- <-]. simpl in *. lia.
Qed.

Lemma read_number_length (s : jsstring) (v : json) (rest : jsstring) :
  read_number s = Some (v, rest) → length rest < length s.
Proof.
  unfold read_number.
  assert (Hminus : length (read_minus s).2 ≤ length s).
  { unfold read_minus. destruct s as [|c s']; [simpl; lia |].
    destruct (c =? 45)%N; simpl; lia. }
  destruct (read_minus s) as [negative s1]. simpl in Hminus.
  destruct s1 as [|c s2]; [done |].
  destruct (is_digit c); [| done].
  assert (Hint : length (if (c =? 48)%N then (0%Z, s2)
                         else let '(i, _, r) :=
                                read_digit_run (Z.of_N c - 48) 1 s2 in (i, r)).2
                 ≤ length s2).
  { destruct (c =? 48)%N; [simpl; lia |].
    pose proof (read_digit_run_length (Z.of_N c - 48) 1 s2) as Hl.
    by destruct (read_digit_run (Z.of_N c - 48) 1 s2) as [[i' n'] r']. }
  destruct (if (c =? 48)%N then (0%Z, s2)
            else let '(i, _, r) := read_digit_run (Z.of_N c - 48) 1 s2 in (i, r))
    as [int_part s3].
  simpl in Hint.
  destruct (read_fraction int_part s3) as [[[m n] s4]|] eqn:Hf; [| done].
  apply read_fraction_length in Hf. cbn [mbind option_bind].
  destruct (read_exponent s4) as [[e rest']|] eqn:He; [| done].
  apply read_exponent_length in He. cbn [mbind option_bind].
  intros [= <- <-]. simpl in *. lia.
Qed.

End Fuel.

Section FuelEnough.

Local Open Scope nat_scope.

Lemma read_elements_S (f : nat) (s : jsstring) :
  read_elements (S f) s
  = '(v, s1) ← read_value f s;
    match expect 44 (skip_ws s1), expect 93 (skip_ws s1) with
    | Some s2, _ => '(l, s3) ← read_elements f s2; Some (v :: l, s3)
    | None, Some s2 => Some ([v], s2)
    | None, None => None
    end.
Proof. reflexivity. Qed.

Lemma read_members_S (f : nat) (s : jsstring) :
  read_members (S f) s
  = s1 ← expect 34 (skip_ws s);
    '(key, s2) ← read_string s1;
    s3 ← expect 58 (skip_ws s2);
    '(v, s4) ← read_value f s3;
    match expect 44 (skip_ws s4), expect 125 (skip_ws s4) with
    | Some s5, _ => '(l, s6) ← read_members f s5; Some ((key, v) :: l, s6)
    | None, Some s5 => Some ([(key, v)], s5)
    | None, None => None
    end.
Proof. reflexivity. Qed.

(** More fuel reads the same. *)
Lemma read_fuel_S (f : nat) :
  (∀ s r, read_value f s = Some r → read_value (S f) s = Some r)
  ∧ (∀ s r, read_elements f s = Some r → read_elements (S f) s = Some r)
  ∧ (∀ s r, read_members f s = Some r → read_members (S f) s = Some r).
Proof.
  induction f as [|f (IHv & IHe & IHm)]; [by repeat split |].
  split; [| split].
  - intros s r. cbn [read_value].
    destruct (skip_ws s) as [|c s1]; [done |].
    destruct (c =? 91)%N.
    { destruct (expect 93 (skip_ws s1)); [done |].
      destruct (read_elements f s1) as [p|] eqn:He; [| done].
      by rewrite (IHe _ _ He). }
    destruct (c =? 123)%N; [| done].
    destruct (expect 125 (skip_ws s1)); [done |].
    destruct (read_members f s1) as [p|] eqn:Hm; [| done].
    by rewrite (IHm _ _ Hm).
  - intros s r. rewrite (read_elements_S (S f) s), (read_elements_S f s).
    destruct (read_value f s) as [[v s1]|] eqn:Hv; [| done].
    rewrite (IHv _ _ Hv). cbn [mbind option_bind].
    destruct (expect 44 (skip_ws s1)) as [s2|]; [| done].
    destruct (read_elements f s2) as [p|] eqn:He; [| done].
    by rewrite (IHe _ _ He).
  - intros s r. rewrite (read_members_S (S f) s), (read_members_S f s).
    destruct (expect 34 (skip_ws s)) as [s1|]; [| done]. cbn [mbind option_bind].
    destruct (read_string s1) as [[key s2]|]; [| done]. cbn [mbind option_bind].
    destruct (expect 58 (skip_ws s2)) as [s3|]; [| done]. cbn [mbind option_bind].
    destruct (read_value f s3) as [[v s4]|] eqn:Hv; [| done].
    rewrite (IHv _ _ Hv). cbn [mbind option_bind].
    destruct (expect 44 (skip_ws s4)) as [s5|]; [| done].
    destruct (read_members f s5) as [p|] eqn:Hm; [| done].
    by rewrite (IHm _ _ Hm).
Qed.

Lemma read_fuel_le (f f' : nat) :
  f ≤ f' →
  (∀ s r, read_value f s = Some r → read_value f' s = Some r)
  ∧ (∀ s r, read_elements f s = Some r → read_elements f' s = Some r)
  ∧ (∀ s r, read_members f s = Some r → read_members f' s = Some r).
Proof.
  induction 1 as [|f' _ (IHv & IHe & IHm)]; [done |].
  destruct (read_fuel_S f') as (Hv & He & Hm).
  repeat split; eauto.
Qed.

Lemma read_value_S (f : nat) (s : jsstring) :
  read_value (S f) s
  = match skip_ws s with
    | [] => None
    | c :: s1 =>
        if (c =? 91)%N then
          match expect 93 (skip_ws s1) with
          | Some s2 => Some (JArr [], s2)
          | None => '(l, s2) ← read_elements f s1; Some (JArr l, s2)
          end
        else if (c =? 123)%N then
          match expect 125 (skip_ws s1) with
          | Some s2 => Some (JObj [], s2)
          | None => '(l, s2) ← read_members f s1; Some (JObj l, s2)
          end
        else read_scalar c s1
    end.
Proof. reflexivity. Qed.

Lemma read_scalar_length (c : N) (s1 : jsstring) (v : json) (rest : jsstring) :
  read_scalar c s1 = Some (v, rest) → length rest < length (c :: s1).
Proof.
  unfold read_scalar.
  repeat match goal with
         | |- context [expect_all ?w s1] =>
             destruct (_ =? _)%N;
             [destruct (expect_all w s1) as [s2|] eqn:He; [| done];
              apply expect_all_length in He; intros [= <- <-]; simpl; lia |]
         end.
  destruct (c =? 34)%N.
  - destruct (read_string s1) as [[str s2]|] eqn:Hs; [| done].
    apply read_string_length in Hs. intros [= <- <-]. simpl. lia.
  - apply read_number_length.
Qed.

(** What is read is read with as much fuel as characters are consumed. *)
Lemma read_fuel_bound (f : nat) :
  (∀ s v rest, read_value f s = Some (v, rest) →
     length rest < length s
     ∧ read_value (length s - length rest) s = Some (v, rest))
  ∧ (∀ s l rest, read_elements f s = Some (l, rest) →
     length rest < length s
     ∧ read_elements (length s - length rest) s = Some (l, rest))
  ∧ (∀ s l rest, read_members f s = Some (l, rest) →
     length rest < length s
     ∧ read_members (length s - length rest) s = Some (l, rest)).
Proof.
  induction f as [|f (IHv & IHe & IHm)]; [by repeat split |].
  split; [| split].
  - intros s v rest. rewrite read_value_S.
    pose proof (skip_ws_length s) as Hskip.
    destruct (skip_ws s) as [|c s1] eqn:Hs; [done |]. simpl in Hskip.
    destruct (c =? 91)%N eqn:H91.
    { destruct (expect 93 (skip_ws s1)) as [s2|] eqn:H93.
      - intros [= <- <-]. apply expect_skip_length in H93 as Hl.
        split; [lia |].
        destruct (length s - length s2) as [|g] eqn:Hg; [lia |].
        by rewrite read_value_S, Hs, H91, H93.
      - destruct (read_elements f s1) as [[l s2]|] eqn:He; [| done].
        intros [= <- <-]. apply IHe in He as [Hl He].
        split; [lia |].
        destruct (length s - length s2) as [|g] eqn:Hg; [lia |].
        rewrite read_value_S, Hs, H91, H93.
        apply (read_fuel_le (length s1 - length s2) g) in He; [| lia].
        by rewrite He. }
    destruct (c =? 123)%N eqn:H123.
    { destruct (expect 125 (skip_ws s1)) as [s2|] eqn:H125.
      - intros [= <- <-]. apply expect_skip_length in H125 as Hl.
        split; [lia |].
        destruct (length s - length s2) as [|g] eqn:Hg; [lia |].
        by rewrite read_value_S, Hs, H91, H123, H125.
      - destruct (read_members f s1) as [[l s2]|] eqn:Hm; [| done].
        intros [= <- <-]. apply IHm in Hm as [Hl Hm].
        split; [lia |].
        destruct (length s - length s2) as [|g] eqn:Hg; [lia |].
        rewrite read_value_S, Hs, H91, H123, H125.
        apply (read_fuel_le (length s1 - length s2) g) in Hm; [| lia].
        by rewrite Hm. }
    intros Hsc. apply read_scalar_length in Hsc as Hl. simpl in Hl.
    split; [lia |].
    destruct (length s - length rest) as [|g] eqn:Hg; [lia |].
    by rewrite read_value_S, Hs, H91, H123.
  - intros s l rest. rewrite read_elements_S.
    destruct (read_value f s) as [[v s1]|] eqn:Hv; [| done].
    apply IHv in Hv as [Hl1 Hv]. cbn [mbind option_bind].
    destruct (expect 44 (skip_ws s1)) as [s2|] eqn:H44.
    + apply expect_skip_length in H44 as Hl2.
      destruct (read_elements f s2) as [[l' s3]|] eqn:He; [| done].
      apply IHe in He as [Hl3 He]. cbn [mbind option_bind].
      intros [= <- <-]. split; [lia |].
      destruct (length s - length s3) as [|g] eqn:Hg; [lia |].
      rewrite read_elements_S.
      apply (read_fuel_le (length s - length s1) g) in Hv; [| lia].
      apply (read_fuel_le (length s2 - length s3) g) in He; [| lia].
      rewrite Hv. cbn [mbind option_bind]. rewrite H44, He. done.
    + destruct (expect 93 (skip_ws s1)) as [s2|] eqn:H93; [| done].
      apply expect_skip_length in H93 as Hl2.
      intros [= <- <-]. split; [lia |].
      destruct (length s - length s2) as [|g] eqn:Hg; [lia |].
      rewrite read_elements_S.
      apply (read_fuel_le (length s - length s1) g) in Hv; [| lia].
      rewrite Hv. cbn [mbind option_bind]. by rewrite H44, H93.
  - intros s l rest. rewrite read_members_S.
    destruct (expect 34 (skip_ws s)) as [s1|] eqn:H34; [| done].
    apply expect_skip_length in H34 as Hl1. cbn [mbind option_bind].
    destruct (read_string s1) as [[key s2]|] eqn:Hkey; [| done].
    apply read_string_length in Hkey as Hl2. cbn [mbind option_bind].
    destruct (expect 58 (skip_ws s2)) as [s3|] eqn:H58; [| done].
    apply expect_skip_length in H58 as Hl3. cbn [mbind option_bind].
    destruct (read_value f s3) as [[v s4]|] eqn:Hv; [| done].
    apply IHv in Hv as [Hl4 Hv]. cbn [mbind option_bind].
    destruct (expect 44 (skip_ws s4)) as [s5|] eqn:H44.
    + apply expect_skip_length in H44 as Hl5.
      destruct (read_members f s5) as [[l' s6]|] eqn:Hm; [| done].
      apply IHm in Hm as [Hl6 Hm]. cbn [mbind option_bind].
      intros [= <- <-]. split; [lia |].
      destruct (length s - length s6) as [|g] eqn:Hg; [lia |].
      rewrite read_members_S, H34. cbn [mbind option_bind].
      rewrite Hkey. cbn [mbind option_bind]. rewrite H58. cbn [mbind option_bind].
      apply (read_fuel_le (length s3 - length s4) g) in Hv; [| lia].
      apply (read_fuel_le (length s5 - length s6) g) in Hm; [| lia].
      rewrite Hv. cbn [mbind option_bind]. rewrite H44, Hm. done.
    + destruct (expect 125 (skip_ws s4)) as [s5|] eqn:H125; [| done].
      apply expect_skip_length in H125 as Hl5.
      intros [= <- <-]. split; [lia |].
      destruct (length s - length s5) as [|g] eqn:Hg; [lia |].
      rewrite read_members_S, H34. cbn [mbind option_bind].
      rewrite Hkey. cbn [mbind option_bind]. rewrite H58. cbn [mbind option_bind].
      apply (read_fuel_le (length s3 - length s4) g) in Hv; [| lia].
      rewrite Hv. cbn [mbind option_bind]. by rewrite H44, H125.
Qed.

(** The fuel of [JSON.parse] is enough: what any fuel reads, the length of
    the text reads. *)
Lemma read_value_fuel_enough (f : nat) (s : jsstring) (r : json * jsstring) :
  read_value f s = Some r → read_value (S (length s)) s = Some r.
Proof.
  destruct r as [v rest]. intros Hr.
  apply (read_fuel_bound f) in Hr as [Hl Hr].
  apply (read_fuel_le (length s - length rest) (S (length s))) in Hr; [done | lia].
Qed.

(** [JSON.parse] rejects a text only if no fuel reads it as one value
    followed by white space. *)
Lemma JSON_parse_SyntaxError (text : jsstring) (e : js_error) :
  JSON_parse text = Throw e →
  e = SyntaxError
  ∧ ∀ f v rest, read_value f text = Some (v, rest) → skip_ws rest ≠ [].
Proof.
  unfold JSON_parse. intros Hp. split.
  - destruct (read_value _ _) as [[v rest]|]; [| by injection Hp].
    destruct (skip_ws rest); [done | by injection Hp].
  - intros f v rest Hr Hrest. apply read_value_fuel_enough in Hr.
    by rewrite Hr, Hrest in Hp.
Qed.

End FuelEnough.

(** ** Records as text *)

Section ReadTodo.

Lemma read_value_string (f : nat) (s rest : jsstring) :
  read_value (S f) (QuoteJSONString s ++ rest) = Some (JStr s, rest).
Proof.
  unfold QuoteJSONString.
  cbn [read_value read_scalar app skip_ws is_json_space N.eqb Pos.eqb orb].
  rewrite <- (List.app_assoc (quote_units s) [34%N]). cbn [app].
  by rewrite read_string_quote_units.
Qed.

Lemma read_value_number (f : nat) (n : Z) (r : jsstring) :
  read_value (S f) (Number_toString n ++ 44%N :: r) = Some (JNum n 0, 44%N :: r).
Proof.
  rewrite <- read_number_toString.
  assert (H : ∃ c s, Number_toString n ++ 44%N :: r = c :: s
                     ∧ (is_digit c = true ∨ c = 45%N)).
  { unfold Number_toString. destruct (n <? 0).
    - eexists _, _. split; [reflexivity | by right].
    - pose proof (count_digits_pos (Z.to_nat (Z.log2 (Z.abs n))) (Z.abs n)).
      destruct (count_digits _ _) as [|k] eqn:Hk; [lia |].
      eexists _, _. split; [reflexivity | left].
      apply digit_char.
      destruct (decide (Z.abs n = 0)) as [-> | Hne].
      + rewrite Z.div_0_l; [lia |]. pose proof (pow10_pos k); lia.
      + pose proof (Z.log2_nonneg (Z.abs n)).
        pose proof (count_digits_spec (Z.to_nat (Z.log2 (Z.abs n))) (Z.abs n)
                      ltac:(lia) ltac:(lia)) as Hc.
        rewrite Hk in Hc.
        apply (leading_digit k). lia. }
  destruct H as (c & s & -> & Hc).
  assert (Hrange : (c = 45 ∨ 48 ≤ c ≤ 57)%N).
  { destruct Hc as [Hc | ->]; [| by left]. right.
    unfold is_digit in Hc. apply andb_true_iff in Hc as [H1 H2].
    apply N.leb_le in H1, H2. lia. }
  cbn [read_value skip_ws]. unfold read_scalar.
  replace (is_json_space c) with false.
  - repeat match goal with
           | |- context [(c =? ?k)%N] =>
               replace (c =? k)%N with false
                 by (symmetry; apply N.eqb_neq; lia)
           end.
    done.
  - symmetry. unfold is_json_space.
    repeat (apply orb_false_iff; split); apply N.eqb_neq; lia.
Qed.

Lemma read_members_more (f : nat) (key : string) (vtext more : jsstring) (v : json) :
  read_value f (vtext ++ 44%N :: more) = Some (v, 44%N :: more) →
  read_members (S f) (write_property key vtext ++ 44%N :: more)
  = '(l, rest) ← read_members f more; Some ((js key, v) :: l, rest).
Proof.
  intros Hv. unfold write_property, QuoteJSONString.
  cbn [read_members app skip_ws is_json_space N.eqb Pos.eqb orb expect
       mbind option_bind].
  rewrite <- !List.app_assoc. cbn [app].
  rewrite read_string_quote_units.
  cbn [mbind option_bind skip_ws is_json_space N.eqb Pos.eqb orb expect].
  rewrite Hv.
  cbn [mbind option_bind skip_ws is_json_space N.eqb Pos.eqb orb expect].
  done.
Qed.

Lemma read_members_last (f : nat) (key : string) (vtext rest : jsstring) (v : json) :
  read_value f (vtext ++ 125%N :: rest) = Some (v, 125%N :: rest) →
  read_members (S f) (write_property key vtext ++ 125%N :: rest)
  = Some ([(js key, v)], rest).
Proof.
  intros Hv. unfold write_property, QuoteJSONString.
  cbn [read_members app skip_ws is_json_space N.eqb Pos.eqb orb expect
       mbind option_bind].
  rewrite <- !List.app_assoc. cbn [app].
  rewrite read_string_quote_units.
  cbn [mbind option_bind skip_ws is_json_space N.eqb Pos.eqb orb expect].
  rewrite Hv.
  cbn [mbind option_bind skip_ws is_json_space N.eqb Pos.eqb orb expect].
  done.
Qed.

Lemma read_value_boolean (f : nat) (b : bool) (rest : jsstring) :
  read_value (S f) ((if b then js "true" else js "false") ++ rest)
  = Some (JBool b, rest).
Proof. by destruct b. Qed.

Lemma read_value_object (f : nat) (key : string) (vtext more : jsstring) :
  read_value (S f) (123%N :: write_property key vtext ++ more)
  = '(l, rest) ← read_members f (write_property key vtext ++ more);
    Some (JObj l, rest).
Proof. reflexivity. Qed.

Lemma read_value_todo (f : nat) (todo : Todo) (rest : jsstring) :
  read_value (7 + f) (stringify_todo todo ++ rest)
  = Some (json_of_todo todo, rest).
Proof.
  unfold stringify_todo, json_of_todo.
  change (7 + f)%nat with (S (S (S (S (S (S (S f))))))).
  repeat first [rewrite <- List.app_assoc | progress cbn [app]].
  rewrite read_value_object.
  rewrite read_members_more with (v := JNum (id todo) 0)
    by apply read_value_number.
  rewrite read_members_more with (v := JStr (title todo))
    by apply read_value_string.
  rewrite read_members_more with (v := JStr (note todo))
    by apply read_value_string.
  destruct (dateCreated todo) as [t|]; cbn [app].
  - rewrite read_members_more with (v := JBool (completed todo))
      by apply read_value_boolean.
    rewrite read_members_last with (v := JStr (Date_toISOString t))
      by apply read_value_string.
    reflexivity.
  - rewrite read_members_last with (v := JBool (completed todo))
      by apply read_value_boolean.
    reflexivity.
Qed.

Lemma length_stringify_todo (todo : Todo) :
  (9 ≤ length (stringify_todo todo))%nat.
Proof.
  unfold stringify_todo, write_property, QuoteJSONString.
  repeat (progress (rewrite ?length_app; cbn [length app])). lia.
Qed.

Lemma length_write_elements (l : list Todo) :
  (9 * length l ≤ length (write_elements (stringify_todo <$> l)))%nat.
Proof.
  induction l as [|t l IH]; [simpl; lia |].
  pose proof (length_stringify_todo t).
  destruct l as [|t' l].
  - simpl in *. lia.
  - change (write_elements (stringify_todo <$> t :: t' :: l))
      with (stringify_todo t ++ 44%N :: write_elements (stringify_todo <$> t' :: l)).
    rewrite length_app. cbn [length] in *. lia.
Qed.

Lemma read_elements_todos (l : list Todo) (f : nat) (rest : jsstring) :
  l ≠ [] →
  read_elements (7 + length l + f)
    (write_elements (stringify_todo <$> l) ++ 93%N :: rest)
  = Some (json_of_todo <$> l, rest).
Proof.
  induction l as [|t l IH]; [done |]. intros _.
  destruct l as [|t' l].
  - change (7 + length [t] + f)%nat with (S (7 + f)).
    cbn [fmap list_fmap write_elements read_elements].
    rewrite read_value_todo. reflexivity.
  - change (write_elements (stringify_todo <$> t :: t' :: l))
      with (stringify_todo t ++ 44%N :: write_elements (stringify_todo <$> t' :: l)).
    replace (7 + length (t :: t' :: l) + f)%nat
      with (S (7 + (length (t' :: l) + f))) by (simpl; lia).
    cbn [read_elements].
    rewrite <- List.app_assoc. cbn [app].
    rewrite read_value_todo.
    cbn [mbind option_bind skip_ws is_json_space N.eqb Pos.eqb orb expect].
    replace (7 + (length (t' :: l) + f))%nat
      with (7 + length (t' :: l) + f)%nat by lia.
    rewrite IH by done. reflexivity.
Qed.

(** [JSON.parse] reads back what [JSON.stringify] writes. *)
Lemma JSON_parse_stringify (l : list Todo) :
  JSON_parse (JSON_stringify l) = Normal (JArr (json_of_todo <$> l)).
Proof.
  destruct l as [|t l]; [reflexivity |].
  unfold JSON_parse, JSON_stringify.
  pose proof (length_write_elements (t :: l)) as Hlen.
  set (texts := write_elements (stringify_todo <$> t :: l)) in *.
  assert (Hhead : ∃ s, texts = 123%N :: s).
  { subst texts. destruct l; eexists; reflexivity. }
  destruct Hhead as [s Hs].
  assert (Hfuel : ∃ f, length (91%N :: texts ++ [93%N])
                       = (7 + length (t :: l) + f)%nat).
  { exists (length (91%N :: texts ++ [93%N]) - (7 + length (t :: l)))%nat.
    cbn [length] in *. rewrite length_app. cbn [length]. lia. }
  destruct Hfuel as [f ->].
  cbn [read_value skip_ws is_json_space N.eqb Pos.eqb orb expect].
  rewrite Hs. cbn [app skip_ws is_json_space N.eqb Pos.eqb orb expect].
  change (123%N :: s ++ [93%N]) with ((123%N :: s) ++ [93%N]). rewrite <- Hs.
  subst texts. rewrite read_elements_todos by done.
  reflexivity.
Qed.

End ReadTodo.

(** ** Loading and saving *)

Section Load.

Context `{Engine}.

Lemma toISOString_not_empty (t : Z) :
  ∃ c s, Date_toISOString t = c :: s.
Proof.
  unfold Date_toISOString, iso_year.
  destruct (_ && _); eexists _, _; reflexivity.
Qed.

Lemma revive_todo_json_of_todo (todo : Todo) (w : world) :
  well_formed todo →
  revive_todo (json_of_todo todo) w = (Normal (object_of_todo todo), w).
Proof.
  unfold well_formed, revive_todo, json_of_todo, object_of_todo.
  destruct (dateCreated todo) as [t|]; intros Hwf.
  - destruct (toISOString_not_empty t) as (c & s & Hs).
    unfold bind, lift, ret, get_property. cbn [app].
    change (get_member (js "dateCreated") _)
      with (Some (JStr (Date_toISOString t))).
    cbn [ToBoolean new_Date]. rewrite Hs. rewrite <- Hs.
    unfold Date_parse. rewrite parse_iso_date_time_toISOString by done.
    cbn [own_properties foldl fst snd].
    by rewrite insert_insert_eq.
  - reflexivity.
Qed.

Lemma each_revive_todo (l : list Todo) (w : world) :
  Forall well_formed l →
  each revive_todo (json_of_todo <$> l) w = (Normal (object_of_todo <$> l), w).
Proof.
  induction 1 as [|t l Ht Hl IH]; [reflexivity |].
  cbn [fmap list_fmap each]. unfold bind at 1.
  rewrite revive_todo_json_of_todo by done.
  unfold bind at 1. rewrite IH. reflexivity.
Qed.

Lemma load_stored_collection (l : list Todo) (w : world) :
  Forall well_formed l →
  accessible (localStorage w) = true →
  items (localStorage w) !! STORAGE_KEY = Some (JSON_stringify l) →
  loadTodosFromStorage w = (Normal (object_of_todo <$> l), w).
Proof.
  intros Hwf Hacc Hitem.
  unfold loadTodosFromStorage, try_catch, bind at 1, localStorage_getItem.
  rewrite Hacc, Hitem.
  unfold JSON_stringify at 1. unfold bind, lift.
  rewrite JSON_parse_stringify. unfold Array_map.
  by rewrite each_revive_todo.
Qed.


Lemma todo_of_object_of_todo (todo : Todo) :
  todo_of_object (object_of_todo todo) = Some todo.
Proof.
  unfold todo_of_object, object_of_todo.
  destruct todo as [i t n c [d|]]; reflexivity.
Qed.

End Load.

Section LoadResult.

Context `{Engine}.

Lemma revive_todo_world (todo : json) (w : world) :
  (revive_todo todo w).2 = w.
Proof.
  unfold revive_todo, bind, lift, ret.
  destruct (get_property todo (js "dateCreated")) as [[v|]|e]; [| done | done].
  destruct (ToBoolean (Some v)); [| done].
  by destruct (new_Date v).
Qed.



End LoadResult.






(** X19. The revision without dates: the load has the same shape, and returns
    what [JSON.parse] gives. *)
Lemma load_without_dates_never_fails (w : world) :
  (∃ v, (WithoutDates.loadTodosFromStorage w).1 = Normal v)
  ∧ (∀ text, accessible (localStorage w) = true →
       items (localStorage w) !! STORAGE_KEY = Some text →
       text ≠ [] →
       WithoutDates.loadTodosFromStorage w
       = match JSON_parse text with
         | Normal v => (Normal v, w)
         | Throw e => (Normal (JArr []), load_failure_logged w e)
         end).
Proof.
  unfold WithoutDates.loadTodosFromStorage, try_catch, bind,
    localStorage_getItem, lift.
  cbv beta.
  destruct (accessible (localStorage w)); [| split; [by eexists | done]].
  destruct (items (localStorage w) !! STORAGE_KEY) as [[|c text]|];
    try (split; [by eexists | congruence]).
  destruct (JSON_parse (c :: text)) eqn:Hp.
  - split; [by eexists |]. intros ? _ [= <-] _. by rewrite Hp.
  - split; [by eexists |]. intros ? _ [= <-] _. by rewrite Hp.
Qed.

(** A failed write is reported and goes no further: [saveTodosToStorage]
    completes normally in every world, and when the store refuses the text
    it keeps what it held. *)
Lemma save_never_fails (l : list Todo) (w : world) :
  ∃ w', saveTodosToStorage l w = (Normal (), w')
    ∧ (items (localStorage w') = items (localStorage w)
       ∨ items (localStorage w')
         = <[STORAGE_KEY := JSON_stringify l]> (items (localStorage w))).
Proof.
  unfold saveTodosToStorage, try_catch, localStorage_setItem, console_error.
  destruct (accessible (localStorage w)); [| by eexists; split; [| left]].
  destruct (decide _); eexists; (split; [reflexivity |]); [by right | by left].
Qed.

(* ===================================================================== *)
(** * How the handlers compose *)
(* ===================================================================== *)

Section Composition.

Implicit Types (st : AppState) (i j : Z) (r : Todo) (l : list Todo).

Lemma setTodos_todos st : setTodos st (todos st) = st.
Proof. by destruct st. Qed.

Lemma setTodos_setTodos st l l' : setTodos (setTodos st l) l' = setTodos st l'.
Proof. done. Qed.

Lemma toggle_one_twice i r : toggle_one i (toggle_one i r) = r.
Proof.
  unfold toggle_one. destruct (decide (id r = i)) as [Hi | Hi]; simpl.
  - rewrite decide_True by done. simpl. rewrite negb_involutive. by destruct r.
  - by rewrite decide_False.
Qed.

Lemma id_toggle_one i r : id (toggle_one i r) = id r.
Proof. unfold toggle_one. by destruct (decide _). Qed.

Lemma toggle_one_comm i j r :
  toggle_one i (toggle_one j r) = toggle_one j (toggle_one i r).
Proof.
  unfold toggle_one.
  destruct (decide (id r = i)), (decide (id r = j)); simpl;
    repeat first [rewrite decide_True by done | rewrite decide_False by done];
    done.
Qed.

Lemma filter_toggle i j l :
  filter (λ todo, id todo ≠ j) (toggle_one i <$> l)
  = toggle_one i <$> filter (λ todo, id todo ≠ j) l.
Proof.
  induction l as [|r l IH]; [done |].
  rewrite fmap_cons, !filter_cons, id_toggle_one.
  destruct (decide (id r ≠ j)); by rewrite IH.
Qed.

Lemma filter_filter_comm i j l :
  filter (λ todo, id todo ≠ i) (filter (λ todo, id todo ≠ j) l)
  = filter (λ todo, id todo ≠ j) (filter (λ todo, id todo ≠ i) l).
Proof.
  induction l as [|r l IH]; [done |].
  rewrite !filter_cons.
  destruct (decide (id r ≠ j)), (decide (id r ≠ i));
    rewrite ?filter_cons, ?decide_True, ?decide_False by done; by rewrite IH.
Qed.

Lemma toggle_after_delete i l :
  toggle_one i <$> filter (λ todo, id todo ≠ i) l
  = filter (λ todo, id todo ≠ i) l.
Proof.
  apply toggle_absent. intros r Hr. by apply list_elem_of_filter in Hr as [? _].
Qed.

Lemma fmap_toggle_twice i l : toggle_one i <$> (toggle_one i <$> l) = l.
Proof.
  induction l as [|r l IH]; [done |].
  rewrite !fmap_cons, toggle_one_twice. by f_equal.
Qed.

Lemma fmap_toggle_comm i j l :
  toggle_one i <$> (toggle_one j <$> l) = toggle_one j <$> (toggle_one i <$> l).
Proof.
  induction l as [|r l IH]; [done |].
  rewrite !fmap_cons, toggle_one_comm. by f_equal.
Qed.

Lemma filter_toggle_same i l :
  filter (λ todo, id todo ≠ i) (toggle_one i <$> l)
  = filter (λ todo, id todo ≠ i) l.
Proof. by rewrite filter_toggle, toggle_after_delete. Qed.

Lemma filter_idemp i l :
  filter (λ todo, id todo ≠ i) (filter (λ todo, id todo ≠ i) l)
  = filter (λ todo, id todo ≠ i) l.
Proof.
  apply delete_absent. intros r Hr. by apply list_elem_of_filter in Hr as [? _].
Qed.

Lemma filter_append_fresh i l r :
  id r = i → Forall (λ x, id x ≠ i) l →
  filter (λ todo, id todo ≠ i) (l ++ [r]) = l.
Proof.
  intros Hi Hl. rewrite filter_app, delete_absent.
  - rewrite filter_cons_False by (intros H; by apply H). apply app_nil_r.
  - intros x Hx. eapply Forall_forall in Hl; eauto.
Qed.

End Composition.

(** X1. Toggling a task twice gives back the state, whatever the collection
    holds. *)
Theorem toggle_twice_restores (st : AppState) (i : Z) :
  Toggle i (Toggle i st) = st.
Proof.
  unfold Toggle, toggleTodo. rewrite setTodos_setTodos. cbn [todos setTodos].
  rewrite fmap_toggle_twice. by destruct st.
Qed.

(** X2. After [Delete(id)] a further [Delete(id)] or [Toggle(id)] changes
    nothing, and a [Toggle(id)] before the [Delete(id)] makes no
    difference. *)
Theorem delete_absorbs (st : AppState) (i : Z) :
  Delete i (Delete i st) = Delete i st
  ∧ Toggle i (Delete i st) = Delete i st
  ∧ Delete i (Toggle i st) = Delete i st.
Proof.
  unfold Toggle, toggleTodo, Delete, deleteTodo.
  rewrite !setTodos_setTodos. cbn [todos setTodos].
  by rewrite filter_idemp, toggle_after_delete, filter_toggle_same.
Qed.

(** X3. Toggles and deletes may be done in either order, on the same or on
    different identifiers. *)
Theorem toggle_delete_commute (st : AppState) (i j : Z) :
  Toggle i (Toggle j st) = Toggle j (Toggle i st)
  ∧ Delete i (Delete j st) = Delete j (Delete i st)
  ∧ Delete j (Toggle i st) = Toggle i (Delete j st).
Proof.
  unfold Toggle, toggleTodo, Delete, deleteTodo.
  rewrite !setTodos_setTodos. cbn [todos setTodos].
  rewrite (fmap_toggle_comm i j), (filter_filter_comm i j), filter_toggle.
  done.
Qed.

(** X4. Deleting a task that was just added, under an identifier that no other
    record carries, gives back the collection. *)
Theorem add_then_delete_restores
    (st : AppState) (t n : jsstring) (now_id now_date : Z) :
  non_blank t = true → non_blank n = true →
  Forall (λ x, id x ≠ now_id) (todos st) →
  todos (Delete now_id (Add t n now_id now_date st)) = todos st.
Proof.
  intros Ht Hn Hfresh. rewrite todos_Add_non_blank by done.
  unfold Delete, deleteTodo. cbn [todos setTodos].
  by apply filter_append_fresh.
Qed.

Lemma add_then_delete_restores_witness :
  todos (Delete 7 (Add (js "Buy milk") (js "2 liters") 7 8 two_tasks))
  = todos two_tasks.
Proof.
  apply add_then_delete_restores; [reflexivity | reflexivity |].
  repeat constructor; vm_compute; discriminate.
Defined.

(** X5. [Add] appends a record exactly when the title and the note each hold a
    code unit that is not white space; otherwise the collection stays as it
    is. *)
Theorem add_appends_iff_visible_text
    (st : AppState) (t n : jsstring) (now_id now_date : Z) :
  (length (todos (Add t n now_id now_date st)) = S (length (todos st))
   ↔ Exists (λ c, is_white_space c = false) t
     ∧ Exists (λ c, is_white_space c = false) n)
  ∧ (todos (Add t n now_id now_date st) = todos st
     ↔ Forall (λ c, is_white_space c = true) t
       ∨ Forall (λ c, is_white_space c = true) n).
Proof.
  rewrite <- !non_blank_true_iff, <- !non_blank_false_iff.
  unfold Add, addTodo. cbn [inputTitle inputNote setInputNote setInputTitle].
  destruct (non_blank t), (non_blank n); cbn [andb todos setTodos setInputTitle
    setInputNote setShowInputs]; rewrite ?length_app; cbn [length];
    (split; split); intros H; try tauto; try lia; try done.
  - apply (f_equal length) in H. rewrite length_app in H. simpl in H. lia.
Qed.

(** X6. The revision without dates: with a title and a note that are not blank
    [addTodo] appends one record, not completed and without a date, which
    the display order of the later revision treats as created at the epoch;
    with a blank field it returns the state. *)
Theorem add_without_dates (st : AppState) (now_id : Z) :
  (trim (inputTitle st) ≠ [] → trim (inputNote st) ≠ [] →
     WithoutDates.addTodo st now_id
     = mkApp (todos st ++ [mkTodo now_id (inputTitle st) (inputNote st) false None])
             [] [] false (isDarkTheme st)
     ∧ time_key (mkTodo now_id (inputTitle st) (inputNote st) false None) = 0)
  ∧ (trim (inputTitle st) = [] ∨ trim (inputNote st) = [] →
     WithoutDates.addTodo st now_id = st).
Proof.
  unfold WithoutDates.addTodo, non_blank. split.
  - intros Ht Hn.
    destruct (trim (inputTitle st)); [done |].
    by destruct (trim (inputNote st)).
  - intros [-> | ->]; [done |]. by rewrite andb_false_r.
Qed.

Lemma add_without_dates_witness :
  todos (WithoutDates.addTodo
           (mkApp [milk] (js "Buy bread") (js "sliced") true false) 9)
  = [milk; mkTodo 9 (js "Buy bread") (js "sliced") false None]
  ∧ WithoutDates.addTodo (mkApp [milk] (js "  ") (js "sliced") true false) 9
    = mkApp [milk] (js "  ") (js "sliced") true false.
Proof.
  destruct (add_without_dates
              (mkApp [milk] (js "Buy bread") (js "sliced") true false) 9)
    as [Hadd _].
  destruct (add_without_dates
              (mkApp [milk] (js "  ") (js "sliced") true false) 9)
    as [_ Hblank].
  split.
  - destruct Hadd as [-> _]; [vm_compute; discriminate ..|]. reflexivity.
  - apply Hblank. left. reflexivity.
Defined.

(* ===================================================================== *)
(** * The display order under the operations *)
(* ===================================================================== *)

Section DisplayUnderOperations.

Implicit Types (i k : Z) (r : Todo) (l : list Todo).

Lemma time_key_toggle_one i r : time_key (toggle_one i r) = time_key r.
Proof. unfold toggle_one. by destruct (decide _). Qed.

Lemma sort_insert_toggle i r l :
  sort_insert compareTodos (toggle_one i r) (toggle_one i <$> l)
  = toggle_one i <$> sort_insert compareTodos r l.
Proof.
  induction l as [|y l IH]; [done |].
  cbn [fmap list_fmap sort_insert]. unfold compareTodos at 1 3.
  rewrite !time_key_toggle_one.
  destruct (_ <=? _); [done |].
  cbn [fmap list_fmap]. f_equal. exact IH.
Qed.

Lemma sortedTodos_toggle i l :
  sortedTodos (toggle_one i <$> l) = toggle_one i <$> sortedTodos l.
Proof.
  unfold sortedTodos. induction l as [|r l IH]; [done |].
  cbn [fmap list_fmap array_sort]. by rewrite IH, sort_insert_toggle.
Qed.






End DisplayUnderOperations.




(** X9. Toggling a task does not move any card: the display of the toggled
    collection is the toggled display. *)
Theorem toggle_keeps_display_order (st : AppState) (i : Z) :
  sortedTodos (todos (Toggle i st)) = toggle_one i <$> sortedTodos (todos st).
Proof. apply sortedTodos_toggle. Qed.




(* ===================================================================== *)
(** * Edge behaviour of the persistence *)
(* ===================================================================== *)

Section PersistenceEdges.

Context `{Engine}.

Lemma revive_todo_result (todo : json) (w w' : world) :
  (revive_todo todo w).1 = (revive_todo todo w').1.
Proof.
  unfold revive_todo, bind, lift, ret.
  destruct (get_property todo (js "dateCreated")) as [[v|]|e]; [| done | done].
  destruct (ToBoolean (Some v)); [| done].
  by destruct (new_Date v).
Qed.

Lemma each_revive_todo_result (l : list json) (w w' : world) :
  (each revive_todo l w).1 = (each revive_todo l w').1.
Proof.
  induction l as [|todo l IH]; [done |].
  cbn [each]. unfold bind.
  rewrite (surjective_pairing (revive_todo todo w)),
          (surjective_pairing (revive_todo todo w')).
  rewrite !revive_todo_world, (revive_todo_result todo w w').
  destruct (revive_todo todo w').1 as [o|e]; [| done].
  rewrite (surjective_pairing (each revive_todo l w)),
          (surjective_pairing (each revive_todo l w')).
  rewrite IH. by destruct (each revive_todo l w').1.
Qed.

(** What a load returns depends on the store alone. *)
Lemma load_result_of_store (w w' : world) :
  accessible (localStorage w) = accessible (localStorage w') →
  items (localStorage w) !! STORAGE_KEY = items (localStorage w') !! STORAGE_KEY →
  (loadTodosFromStorage w).1 = (loadTodosFromStorage w').1.
Proof.
  intros Hacc Hitem.
  unfold loadTodosFromStorage, try_catch, bind, localStorage_getItem, lift.
  cbv beta. rewrite Hacc, Hitem.
  destruct (accessible (localStorage w')); [| done].
  destruct (items (localStorage w') !! STORAGE_KEY) as [[|c text]|]; try done.
  destruct (JSON_parse (c :: text)) as [v|e]; [| done].
  destruct v; try done.
  unfold Array_map.
  rewrite (surjective_pairing (each revive_todo elements w)),
          (surjective_pairing (each revive_todo elements w')).
  rewrite (each_revive_todo_result elements w w').
  by destruct (each revive_todo elements w').1.
Qed.

Lemma each_revive_null (l : list json) (w : world) :
  JNull ∈ l → ∃ e, each revive_todo l w = (Throw e, w).
Proof.
  induction l as [|todo l IH]; intros Hin; [by apply elem_of_nil in Hin |].
  cbn [each]. unfold bind at 1.
  pose proof (revive_todo_world todo w) as Hw.
  destruct (revive_todo todo w) as [[o|e] w1] eqn:Hr; simpl in Hw; subst w1;
    [| by eexists].
  apply elem_of_cons in Hin as [<- | Hin]; [discriminate Hr |].
  destruct (IH Hin) as [e He]. unfold bind. rewrite He. by eexists.
Qed.

Lemma own_properties_lookup (members : list (jsstring * json)) (key : jsstring)
    (o : js_object) :
  foldl (λ (o : js_object) (kv : jsstring * json), <[kv.1 := VJson kv.2]> o)
        o members !! key
  = match get_member key members with
    | Some v => Some (VJson v)
    | None => o !! key
    end.
Proof.
  revert o. induction members as [|[k v] members IH]; intros o; [done |].
  cbn [foldl get_member fst snd]. rewrite IH.
  destruct (get_member key members); [done |].
  destruct (decide (k = key)) as [-> | Hne].
  - apply lookup_insert_eq.
  - by apply lookup_insert_ne.
Qed.

Lemma json_of_todo_inj (t1 t2 : Todo) :
  well_formed t1 → well_formed t2 →
  json_of_todo t1 = json_of_todo t2 → t1 = t2.
Proof.
  destruct t1 as [i1 a1 n1 c1 d1], t2 as [i2 a2 n2 c2 d2].
  unfold well_formed, json_of_todo. cbn [dateCreated id title note completed].
  intros H1 H2 Heq.
  destruct d1 as [d1|], d2 as [d2|]; cbn [app] in Heq; try discriminate Heq.
  - injection Heq as -> -> -> -> Hd. do 2 f_equal.
    apply (f_equal parse_iso_date_time) in Hd.
    rewrite !parse_iso_date_time_toISOString in Hd by done. congruence.
  - by injection Heq as -> -> -> ->.
Qed.

End PersistenceEdges.

Lemma saveTodosToStorage_eq (l : list Todo) (w : world) :
  saveTodosToStorage l w
  = if accessible (localStorage w) then
      if decide (storage_usage
                   (<[STORAGE_KEY := JSON_stringify l]> (items (localStorage w)))
                 ≤ quota (localStorage w))%nat
      then (Normal (),
            mkWorld (mkStorage
                       (<[STORAGE_KEY := JSON_stringify l]>
                          (items (localStorage w)))
                       true (quota (localStorage w)))
                    (console w))
      else (Normal (), save_failure_logged w QuotaExceededError)
    else (Normal (), save_failure_logged w SecurityError).
Proof.
  unfold saveTodosToStorage, try_catch, localStorage_setItem.
  destruct (accessible (localStorage w)); [| done].
  by destruct (decide _).
Qed.

Lemma theme_effect_eq (b : bool) (p : page) :
  theme_effect b p
  = if accessible (localStorage (page_world p)) then
      if decide (storage_usage
                   (<[THEME_STORAGE_KEY := if b then js "dark" else js "light"]>
                      (items (localStorage (page_world p))))
                 ≤ quota (localStorage (page_world p)))%nat
      then (Normal (),
            mkPage
              (mkWorld
                 (mkStorage
                    (<[THEME_STORAGE_KEY := if b then js "dark" else js "light"]>
                       (items (localStorage (page_world p))))
                    true (quota (localStorage (page_world p))))
                 (console (page_world p)))
              (if b then js "dark-theme" else js "light-theme"))
      else (Throw QuotaExceededError, p)
    else (Throw SecurityError, p).
Proof.
  unfold theme_effect, localStorage_setItem. destruct p as [w c].
  cbn [page_world body_className].
  destruct (accessible (localStorage w)); [| done].
  by destruct (decide _).
Qed.

Lemma keys_differ : THEME_STORAGE_KEY ≠ STORAGE_KEY.
Proof. vm_compute. discriminate. Qed.

(** X12. [saveTodosToStorage] completes normally in every world. Either the
    store is accessible and has room: the text of the collection is then
    under the key and nothing is reported; or the store is left as it was
    and one diagnostic is written. *)
Theorem save_writes_or_reports (l : list Todo) (w : world) :
  (accessible (localStorage w) = true
   ∧ (storage_usage (<[STORAGE_KEY := JSON_stringify l]> (items (localStorage w)))
      ≤ quota (localStorage w))%nat
   ∧ saveTodosToStorage l w
     = (Normal (),
        mkWorld (mkStorage
                   (<[STORAGE_KEY := JSON_stringify l]> (items (localStorage w)))
                   true (quota (localStorage w)))
                (console w)))
  ∨ ((accessible (localStorage w) = false
      ∨ (quota (localStorage w)
         < storage_usage
             (<[STORAGE_KEY := JSON_stringify l]> (items (localStorage w))))%nat)
     ∧ ∃ e, saveTodosToStorage l w = (Normal (), save_failure_logged w e)).
Proof.
  unfold saveTodosToStorage, try_catch, localStorage_setItem, console_error,
    save_failure_logged.
  destruct (accessible (localStorage w)) eqn:Hacc.
  - destruct (decide _) as [Hfit | Hfull].
    + left. done.
    + right. split; [right; lia | by eexists].
  - right. split; [by left | by eexists].
Qed.

(** X13. [saveTodosToStorage] writes under its own key only: every other item,
    and with it the stored theme, is what it was. *)
Theorem save_leaves_other_keys (l : list Todo) (w : world) :
  (∀ key, key ≠ STORAGE_KEY →
     items (localStorage (saveTodosToStorage l w).2) !! key
     = items (localStorage w) !! key)
  ∧ (initial_isDarkTheme (saveTodosToStorage l w).2).1
    = (initial_isDarkTheme w).1.
Proof.
  assert (Hkeys : ∀ key, key ≠ STORAGE_KEY →
     items (localStorage (saveTodosToStorage l w).2) !! key
     = items (localStorage w) !! key).
  { intros key Hkey.
    unfold saveTodosToStorage, try_catch, localStorage_setItem, console_error.
    destruct (accessible (localStorage w)); [| done].
    destruct (decide _); [| done]. simpl. by rewrite lookup_insert_ne. }
  split; [done |].
  assert (Hacc : accessible (localStorage (saveTodosToStorage l w).2)
                 = accessible (localStorage w)).
  { unfold saveTodosToStorage, try_catch, localStorage_setItem, console_error.
    destruct (accessible (localStorage w)) eqn:Ha; [| done].
    by destruct (decide _). }
  unfold initial_isDarkTheme, bind, ret, localStorage_getItem.
  rewrite Hacc, (Hkeys _ keys_differ).
  by destruct (accessible (localStorage w)).
Qed.

Lemma save_leaves_other_keys_witness :
  items (localStorage
           (saveTodosToStorage [milk]
              (mkWorld (mkStorage {[ THEME_STORAGE_KEY := js "dark" ]} true 5000) [])).2)
    !! THEME_STORAGE_KEY
  = Some (js "dark").
Proof.
  destruct (save_leaves_other_keys [milk]
    (mkWorld (mkStorage {[ THEME_STORAGE_KEY := js "dark" ]} true 5000) []))
    as [Hkeys _].
  rewrite Hkeys; [reflexivity | vm_compute; discriminate].
Defined.

(** X14. One [null] among the stored records loses them all: the load returns
    the empty collection and writes a diagnostic. *)
Theorem load_discards_all_on_null_record `{Engine}
    (w : world) (text : jsstring) (elements : list json) :
  accessible (localStorage w) = true →
  items (localStorage w) !! STORAGE_KEY = Some text →
  JSON_parse text = Normal (JArr elements) →
  JNull ∈ elements →
  ∃ e, loadTodosFromStorage w = (Normal [], load_failure_logged w e).
Proof.
  intros Hacc Hitem Hparse Hnull.
  unfold loadTodosFromStorage, try_catch, bind, localStorage_getItem, lift.
  cbv beta. rewrite Hacc, Hitem.
  destruct text as [|c text]; [discriminate Hparse |].
  rewrite Hparse. unfold Array_map.
  destruct (each_revive_null elements w Hnull) as [e ->]. by exists e.
Qed.

Lemma load_discards_all_on_null_record_witness :
  ∃ e, @loadTodosFromStorage strict_engine
         (mkWorld (mkStorage {[ STORAGE_KEY := js "[{},null]" ]} true 5000) [])
       = (Normal [],
          load_failure_logged
            (mkWorld (mkStorage {[ STORAGE_KEY := js "[{},null]" ]} true 5000) [])
            e).
Proof.
  apply (@load_discards_all_on_null_record strict_engine _
           (js "[{},null]") [JObj []; JNull]);
    [reflexivity | reflexivity | reflexivity |].
  right. left.
Defined.

(** X15. A stored value that parses but is no array gives the empty collection
    and a [TypeError] in the diagnostics. *)
Theorem load_rejects_non_array `{Engine}
    (w : world) (text : jsstring) (v : json) :
  accessible (localStorage w) = true →
  items (localStorage w) !! STORAGE_KEY = Some text →
  JSON_parse text = Normal v →
  (∀ elements, v ≠ JArr elements) →
  loadTodosFromStorage w = (Normal [], load_failure_logged w TypeError).
Proof.
  intros Hacc Hitem Hparse Hv.
  unfold loadTodosFromStorage, try_catch, bind, localStorage_getItem, lift.
  cbv beta. rewrite Hacc, Hitem.
  destruct text as [|c text]; [discriminate Hparse |].
  rewrite Hparse. destruct v; try done. by destruct (Hv elements).
Qed.

Lemma load_rejects_non_array_witness :
  @loadTodosFromStorage strict_engine
    (mkWorld (mkStorage {[ STORAGE_KEY := js "5" ]} true 5000) [])
  = (Normal [],
     load_failure_logged
       (mkWorld (mkStorage {[ STORAGE_KEY := js "5" ]} true 5000) [])
       TypeError).
Proof.
  apply (@load_rejects_non_array strict_engine _ (js "5")
           (JNum 5 0));
    [reflexivity | reflexivity | reflexivity | discriminate].
Defined.

(** X16. A stored record keeps all its properties through the load, whatever
    their names and values: only [dateCreated] is replaced. *)
Theorem load_keeps_other_properties `{Engine}
    (members : list (jsstring * json)) (w w' : world) (o : js_object) :
  revive_todo (JObj members) w = (Normal o, w') →
  ∀ key, key ≠ js "dateCreated" →
    o !! key = VJson <$> get_member key members.
Proof.
  intros Hr key Hkey.
  assert (Ho : ∃ date, o = <[js "dateCreated" := date]>
                             (own_properties (JObj members))).
  { unfold revive_todo, bind, lift, ret, get_property in Hr.
    destruct (get_member (js "dateCreated") members) as [v|];
      [| injection Hr as <- _; by eexists].
    destruct (ToBoolean (Some v)); [| injection Hr as <- _; by eexists].
    destruct (new_Date v); [| discriminate Hr].
    injection Hr as <- _. by eexists. }
  destruct Ho as [date ->].
  rewrite lookup_insert_ne by done.
  cbn [own_properties]. rewrite own_properties_lookup, lookup_empty.
  by destruct (get_member key members).
Qed.

Lemma load_keeps_other_properties_witness :
  (<[js "dateCreated" := VUndefined]>
     (own_properties
        (JObj [(js "id", JNum 1 0); (js "colour", JStr (js "red"));
               (js "id", JNum 2 0)]))) !! js "id"
  = Some (VJson (JNum 2 0)).
Proof.
  refine (@load_keeps_other_properties strict_engine
            [(js "id", JNum 1 0); (js "colour", JStr (js "red"));
             (js "id", JNum 2 0)] empty_world empty_world _ eq_refl (js "id") _).
  vm_compute. discriminate.
Defined.



(** X18. Two collections with the same text are the same collection: no
    snapshot stands for two states of the list. *)
Theorem stringify_is_injective (l1 l2 : list Todo) :
  Forall well_formed l1 → Forall well_formed l2 →
  JSON_stringify l1 = JSON_stringify l2 → l1 = l2.
Proof.
  intros H1 H2 Htext.
  apply (f_equal JSON_parse) in Htext.
  rewrite !JSON_parse_stringify in Htext.
  assert (Hjson : json_of_todo <$> l1 = json_of_todo <$> l2) by congruence.
  clear Htext.
  revert l2 H2 Hjson.
  induction H1 as [|t1 l1 Ht1 Hl1 IH]; intros l2 H2 Hjson.
  - by destruct l2.
  - destruct H2 as [|t2 l2 Ht2 Hl2]; [discriminate Hjson |].
    rewrite !fmap_cons in Hjson.
    assert (Ht : json_of_todo t1 = json_of_todo t2)
      by exact (f_equal (λ l, default JNull (head l)) Hjson).
    assert (Hl : json_of_todo <$> l1 = json_of_todo <$> l2)
      by exact (f_equal tail Hjson).
    f_equal; [by apply json_of_todo_inj | by apply IH].
Qed.

Lemma stringify_is_injective_witness :
  JSON_stringify [milk; undated] = JSON_stringify [milk; undated] ∧
  [milk; undated] = [milk; undated].
Proof.
  split; [reflexivity |].
  apply stringify_is_injective; [| | reflexivity];
    repeat constructor; vm_compute; intuition discriminate.
Defined.

Lemma load_without_dates_never_fails_witness :
  WithoutDates.loadTodosFromStorage
    (mkWorld (mkStorage {[ STORAGE_KEY := js "5" ]} true 5000) [])
  = (Normal (JNum 5 0),
     mkWorld (mkStorage {[ STORAGE_KEY := js "5" ]} true 5000) []).
Proof.
  destruct (load_without_dates_never_fails
              (mkWorld (mkStorage {[ STORAGE_KEY := js "5" ]} true 5000) []))
    as [_ Hload].
  rewrite (Hload (js "5")); [reflexivity | reflexivity | reflexivity |].
  vm_compute. discriminate.
Defined.

(* ===================================================================== *)
(** * The theme preference *)
(* ===================================================================== *)

(** X20. With a store that can be read, the initial theme is dark exactly when
    the stored preference is the string [dark]: an absent preference, and
    any other string, give the light theme. *)
Theorem initial_theme_dark_iff (w : world) :
  accessible (localStorage w) = true →
  ∃ b, initial_isDarkTheme w = (Normal b, w)
    ∧ (b = true ↔ items (localStorage w) !! THEME_STORAGE_KEY = Some (js "dark")).
Proof.
  intros Hacc. unfold initial_isDarkTheme, bind, ret, localStorage_getItem.
  rewrite Hacc. eexists. split; [reflexivity |].
  apply bool_decide_eq_true.
Qed.

Lemma initial_theme_dark_iff_witness :
  ∃ b, initial_isDarkTheme
         (mkWorld (mkStorage {[ THEME_STORAGE_KEY := js "Dark" ]} true 5000) [])
       = (Normal b,
          mkWorld (mkStorage {[ THEME_STORAGE_KEY := js "Dark" ]} true 5000) [])
    ∧ (b = true ↔ items (localStorage
                          (mkWorld (mkStorage {[ THEME_STORAGE_KEY := js "Dark" ]}
                                              true 5000) []))
                  !! THEME_STORAGE_KEY = Some (js "dark")).
Proof. apply initial_theme_dark_iff. reflexivity. Defined.

(** X21. What the theme effect writes, the initialiser reads back, and the class
    of the body agrees with it. *)
Theorem theme_round_trip (b : bool) (p p' : page) :
  theme_effect b p = (Normal (), p') →
  initial_isDarkTheme (page_world p') = (Normal b, page_world p')
  ∧ body_className p' = (if b then js "dark" else js "light") ++ js "-theme".
Proof.
  unfold theme_effect, localStorage_setItem.
  destruct (accessible (localStorage (page_world p))); [| discriminate].
  destruct (decide _); [| discriminate].
  intros [= <-]. cbn [page_world body_className].
  split; [| by destruct b].
  unfold initial_isDarkTheme, bind, ret, localStorage_getItem.
  cbn [localStorage accessible items]. rewrite lookup_insert_eq.
  by destruct b.
Qed.

Lemma theme_round_trip_witness :
  initial_isDarkTheme (page_world (theme_effect true empty_page).2)
  = (Normal true, page_world (theme_effect true empty_page).2)
  ∧ body_className (theme_effect true empty_page).2 = js "dark-theme".
Proof.
  apply (theme_round_trip true empty_page). reflexivity.
Defined.

(** X22. The theme is read and written outside any [try]: with a store that
    cannot be accessed the initialiser throws, where the load of the tasks
    returns the empty collection; and when the store refuses the write, the
    effect throws before it sets the class of the body. *)
Theorem theme_is_unguarded `{Engine} (b : bool) (p : page) :
  (accessible (localStorage (page_world p)) = false →
     initial_isDarkTheme (page_world p) = (Throw SecurityError, page_world p)
     ∧ theme_effect b p = (Throw SecurityError, p)
     ∧ (loadTodosFromStorage (page_world p)).1 = Normal [])
  ∧ (accessible (localStorage (page_world p)) = true →
     (quota (localStorage (page_world p))
      < storage_usage
          (<[THEME_STORAGE_KEY := if b then js "dark" else js "light"]>
             (items (localStorage (page_world p)))))%nat →
     theme_effect b p = (Throw QuotaExceededError, p)).
Proof.
  split.
  - intros Hacc. repeat split.
    + unfold initial_isDarkTheme, bind, localStorage_getItem. by rewrite Hacc.
    + unfold theme_effect, localStorage_setItem. rewrite Hacc. by destruct p.
    + unfold loadTodosFromStorage, try_catch, bind, localStorage_getItem.
      by rewrite Hacc.
  - intros Hacc Hfull.
    unfold theme_effect, localStorage_setItem. rewrite Hacc.
    rewrite decide_False by lia. by destruct p.
Qed.

Lemma theme_is_unguarded_witness :
  initial_isDarkTheme denied_world = (Throw SecurityError, denied_world)
  ∧ theme_effect true (mkPage full_world (js "light-theme"))
    = (Throw QuotaExceededError, mkPage full_world (js "light-theme")).
Proof.
  destruct (@theme_is_unguarded strict_engine true (mkPage denied_world []))
    as [Hdenied _].
  destruct (@theme_is_unguarded strict_engine true
              (mkPage full_world (js "light-theme"))) as [_ Hfull].
  split.
  - apply Hdenied. reflexivity.
  - apply Hfull; [reflexivity | vm_compute; lia].
Defined.

(** X23. The theme effect leaves the tasks alone: whether it succeeds or throws,
    a load returns afterwards what it returned before. *)
Theorem theme_leaves_tasks `{Engine} (b : bool) (p : page) :
  (loadTodosFromStorage (page_world (theme_effect b p).2)).1
  = (loadTodosFromStorage (page_world p)).1.
Proof.
  apply load_result_of_store;
    unfold theme_effect, localStorage_setItem;
    destruct (accessible (localStorage (page_world p))) eqn:Hacc; try done;
    destruct (decide _); try done.
  cbn [snd page_world localStorage items].
  apply lookup_insert_ne, keys_differ.
Qed.

(* ===================================================================== *)
(** * The component: events, effects and a reload *)
(* ===================================================================== *)

Section Component.

Implicit Types (e : event) (st : AppState) (p : page) (l : list Todo).

Local Open Scope nat_scope.

(** What one run of the effect on [todos] leaves. *)
Lemma todos_effect_step l p :
  accessible (localStorage (page_world (todos_effect l p)))
  = accessible (localStorage (page_world p))
  ∧ items (localStorage (page_world (todos_effect l p))) !! THEME_STORAGE_KEY
    = items (localStorage (page_world p)) !! THEME_STORAGE_KEY
  ∧ length (console (page_world p))
    ≤ length (console (page_world (todos_effect l p)))
  ∧ (length (console (page_world (todos_effect l p)))
     = length (console (page_world p)) →
     items (localStorage (page_world (todos_effect l p))) !! STORAGE_KEY
     = Some (JSON_stringify l)).
Proof.
  unfold todos_effect. cbn [page_world]. rewrite saveTodosToStorage_eq.
  destruct (accessible (localStorage (page_world p))) eqn:Hacc;
    [destruct (decide _) |];
    cbn [snd console localStorage items accessible save_failure_logged];
    rewrite ?length_app; cbn [length].
  - repeat split; [by rewrite lookup_insert_ne by apply not_eq_sym, keys_differ
                  | lia | intros _; apply lookup_insert_eq].
  - repeat split; try done; lia.
  - repeat split; try done; lia.
Qed.

(** What a successful run of the effect on the theme leaves. *)
Lemma theme_effect_step (b : bool) p p' :
  theme_effect b p = (Normal (), p') →
  accessible (localStorage (page_world p)) = true
  ∧ accessible (localStorage (page_world p')) = true
  ∧ console (page_world p') = console (page_world p)
  ∧ items (localStorage (page_world p')) !! STORAGE_KEY
    = items (localStorage (page_world p)) !! STORAGE_KEY
  ∧ items (localStorage (page_world p')) !! THEME_STORAGE_KEY
    = Some (if b then js "dark" else js "light").
Proof.
  rewrite theme_effect_eq.
  destruct (accessible (localStorage (page_world p))); [| discriminate].
  destruct (decide _); [| discriminate].
  intros [= <-]. cbn [page_world localStorage items accessible console].
  repeat split.
  - by rewrite lookup_insert_ne by apply keys_differ.
  - apply lookup_insert_eq.
Qed.

Lemma theme_effect_throw (b : bool) p err p' :
  theme_effect b p = (Throw err, p') → p' = p.
Proof.
  rewrite theme_effect_eq.
  destruct (accessible (localStorage (page_world p)));
    [destruct (decide _) |]; congruence.
Qed.

Lemma after_todos_effect_step e st p :
  accessible (localStorage (page_world (after_todos_effect e st p)))
  = accessible (localStorage (page_world p))
  ∧ items (localStorage (page_world (after_todos_effect e st p)))
      !! THEME_STORAGE_KEY
    = items (localStorage (page_world p)) !! THEME_STORAGE_KEY
  ∧ length (console (page_world p))
    ≤ length (console (page_world (after_todos_effect e st p)))
  ∧ (in_sync st p →
     length (console (page_world (after_todos_effect e st p)))
     = length (console (page_world p)) →
     in_sync (handle e st) (after_todos_effect e st p)).
Proof.
  unfold after_todos_effect, in_sync.
  destruct (sets_todos e st) eqn:Hsets.
  - destruct (todos_effect_step (todos (handle e st)) p)
      as (Hacc & Hth & Hle & Hsame).
    repeat split; done.
  - repeat split; try done. intros Hs _. rewrite Hs. do 2 f_equal.
    destruct e; try done. cbn [handle sets_todos] in *.
    unfold addTodo. by rewrite Hsets.
Qed.

Lemma isDarkTheme_handle e st :
  isDarkTheme (handle e st)
  = match e with SwitchTheme => negb (isDarkTheme st) | _ => isDarkTheme st end.
Proof.
  destruct e; try done. cbn [handle]. unfold addTodo.
  by destruct (non_blank (inputTitle st) && non_blank (inputNote st)).
Qed.

Lemma dispatch_eq e st p :
  dispatch e st p
  = match e with
    | SwitchTheme =>
        match theme_effect (isDarkTheme (handle e st))
                (after_todos_effect e st p) with
        | (Normal _, p2) => (Normal (handle e st), p2)
        | (Throw err, p2) => (Throw err, p2)
        end
    | _ => (Normal (handle e st), after_todos_effect e st p)
    end.
Proof. by destruct e. Qed.

Lemma dispatch_frame e st p c p' :
  dispatch e st p = (c, p') →
  accessible (localStorage (page_world p'))
  = accessible (localStorage (page_world p))
  ∧ length (console (page_world p)) ≤ length (console (page_world p')).
Proof.
  rewrite dispatch_eq.
  destruct (after_todos_effect_step e st p) as (Hacc & _ & Hle & _).
  destruct e; try by intros [= <- <-].
  destruct (theme_effect _ _) as [[[]|err] p2] eqn:Hth; intros [= <- <-].
  - apply theme_effect_step in Hth as (Ha & Ha' & Hc & _).
    rewrite Hc. split; [congruence | done].
  - apply theme_effect_throw in Hth as ->. done.
Qed.

Lemma dispatch_step e st p st1 p1 :
  dispatch e st p = (Normal st1, p1) →
  in_sync st p → theme_in_sync st p →
  length (console (page_world p1)) = length (console (page_world p)) →
  in_sync st1 p1 ∧ theme_in_sync st1 p1.
Proof.
  rewrite dispatch_eq.
  destruct (after_todos_effect_step e st p) as (_ & Hth & _ & Hsame).
  pose proof (isDarkTheme_handle e st) as Hdark.
  unfold theme_in_sync in *.
  destruct e.
  1-6: intros [= <- <-] Hs Ht Hlen; split;
         [by apply Hsame
         | rewrite Hth, Ht;
           apply (f_equal (λ b : bool, Some (if b then js "dark" else js "light")));
           symmetry; exact Hdark].
  destruct (theme_effect _ _) as [[[]|err] p2] eqn:Heff; [| discriminate].
  intros [= <- <-] Hs Ht Hlen.
  apply theme_effect_step in Heff as (_ & _ & Hc & Hst & Htheme).
  split; [| done]. unfold in_sync. rewrite Hst. apply Hsame; [done |].
  by rewrite <- Hc.
Qed.

Lemma dispatch_all_frame (es : list event) st p c p' :
  dispatch_all es st p = (c, p') →
  accessible (localStorage (page_world p'))
  = accessible (localStorage (page_world p))
  ∧ length (console (page_world p)) ≤ length (console (page_world p')).
Proof.
  revert st p. induction es as [|e es IH]; intros st p; cbn [dispatch_all].
  - by intros [= <- <-].
  - destruct (dispatch e st p) as [[st1|err] p1] eqn:He.
    + intros Hall. apply dispatch_frame in He as [Ha1 Hl1].
      apply IH in Hall as [Ha Hl]. split; [congruence | lia].
    + intros [= <- <-]. by apply dispatch_frame in He.
Qed.

Lemma dispatch_all_steps (es : list event) st p st' p' :
  dispatch_all es st p = (Normal st', p') →
  in_sync st p → theme_in_sync st p →
  length (console (page_world p')) = length (console (page_world p)) →
  in_sync st' p' ∧ theme_in_sync st' p'.
Proof.
  revert st p. induction es as [|e es IH]; intros st p; cbn [dispatch_all].
  - by intros [= <- <-].
  - destruct (dispatch e st p) as [[st1|err] p1] eqn:He; [| discriminate].
    intros Hall Hs Ht Hlen.
    pose proof (dispatch_frame _ _ _ _ _ He) as [_ Hl1].
    pose proof (dispatch_all_frame _ _ _ _ _ Hall) as [_ Hl2].
    destruct (dispatch_step _ _ _ _ _ He Hs Ht) as [Hs1 Ht1]; [lia |].
    apply (IH _ _ Hall Hs1 Ht1). lia.
Qed.

Lemma mount_step st p p0 :
  mount st p = (Normal (), p0) →
  accessible (localStorage (page_world p0)) = true
  ∧ length (console (page_world p)) ≤ length (console (page_world p0))
  ∧ theme_in_sync st p0
  ∧ (length (console (page_world p0)) = length (console (page_world p)) →
     in_sync st p0).
Proof.
  unfold mount. intros Hth.
  apply theme_effect_step in Hth as (_ & Ha & Hc & Hst & Htheme).
  destruct (todos_effect_step (todos st) p) as (_ & _ & Hle & Hsame).
  rewrite Hc. repeat split; try done.
  intros Hlen. unfold in_sync. rewrite Hst. by apply Hsame.
Qed.

Lemma mapM_todo_of_object l :
  mapM todo_of_object (object_of_todo <$> l) = Some l.
Proof.
  apply mapM_Some. apply Forall2_fmap_l, Forall_Forall2_diag, Forall_forall.
  intros todo _. apply todo_of_object_of_todo.
Qed.

End Component.

(** X24. After any event, the stored snapshot is the text of the collection in
    the state, or the save has reported its failure on the console: the
    component never holds tasks that differ from the snapshot silently. *)
Theorem snapshot_in_sync_or_reported (e : event) (st : AppState) (p : page) :
  in_sync st p →
  in_sync (handle e st) (dispatch e st p).2
  ∨ (length (console (page_world p))
     < length (console (page_world (dispatch e st p).2)))%nat.
Proof.
  intros Hs.
  destruct (after_todos_effect_step e st p) as (_ & _ & Hle & Hsame).
  destruct (decide (length (console (page_world (after_todos_effect e st p)))
                    = length (console (page_world p)))) as [Heq | Hne].
  - left. specialize (Hsame Hs Heq). rewrite dispatch_eq.
    destruct e; try done.
    destruct (theme_effect _ _) as [[[]|err] p2] eqn:Heff; cbn [snd].
    + apply theme_effect_step in Heff as (_ & _ & _ & Hst & _).
      unfold in_sync. by rewrite Hst.
    + by apply theme_effect_throw in Heff as ->.
  - right. rewrite dispatch_eq.
    destruct e; cbn [snd]; try lia.
    destruct (theme_effect _ _) as [[[]|err] p2] eqn:Heff; cbn [snd].
    + apply theme_effect_step in Heff as (_ & _ & Hc & _). rewrite Hc. lia.
    + apply theme_effect_throw in Heff as ->. lia.
Qed.

Lemma snapshot_in_sync_or_reported_witness :
  in_sync (handle (ClickDelete 7) at_tick_5)
          (dispatch (ClickDelete 7) at_tick_5
             (todos_effect (todos at_tick_5) empty_page)).2
  ∨ (length (console (page_world (todos_effect (todos at_tick_5) empty_page)))
     < length (console (page_world
         (dispatch (ClickDelete 7) at_tick_5
            (todos_effect (todos at_tick_5) empty_page)).2)))%nat.
Proof.
  apply (snapshot_in_sync_or_reported (ClickDelete 7) at_tick_5).
  vm_compute. reflexivity.
Defined.

(** X25. A session that ran without an error and without a diagnostic can be
    reloaded: the initial state of the next render has the tasks and the
    theme of the last state, the two fields empty and the form hidden. *)
Theorem session_survives_reload `{Engine} (es : list event)
    (st st' : AppState) (p p0 p' : page) :
  mount st p = (Normal (), p0) →
  dispatch_all es st p0 = (Normal st', p') →
  length (console (page_world p')) = length (console (page_world p)) →
  Forall well_formed (todos st') →
  ∃ init,
    initial_state (page_world p') = (Normal init, page_world p')
    ∧ state_of_initial init
      = Some (mkApp (todos st') [] [] false (isDarkTheme st')).
Proof.
  intros Hmount Hall Hlen Hwf.
  apply mount_step in Hmount as (Hacc0 & Hle0 & Ht0 & Hs0).
  pose proof (dispatch_all_frame _ _ _ _ _ Hall) as [Hacc Hle].
  destruct (dispatch_all_steps _ _ _ _ _ Hall) as [Hs Ht];
    [apply Hs0; lia | done | lia |].
  rewrite Hacc0 in Hacc.
  exists (object_of_todo <$> todos st', isDarkTheme st'). split.
  - unfold initial_state, bind at 1.
    rewrite (load_stored_collection _ _ Hwf Hacc Hs).
    unfold initial_isDarkTheme, bind, ret, localStorage_getItem.
    rewrite Hacc, Ht. by destruct (isDarkTheme st').
  - unfold state_of_initial. cbn [fst snd].
    by rewrite mapM_todo_of_object.
Qed.

Lemma session_survives_reload_witness :
  ∃ init,
    @initial_state strict_engine
      (page_world (dispatch_all sample_events empty_session
                     (mount empty_session empty_page).2).2)
    = (Normal init,
       page_world (dispatch_all sample_events empty_session
                     (mount empty_session empty_page).2).2)
    ∧ state_of_initial init = Some sample_reloaded.
Proof.
  apply (@session_survives_reload strict_engine sample_events empty_session
           sample_reloaded empty_page (mount empty_session empty_page).2).
  - vm_compute. reflexivity.
  - vm_compute. reflexivity.
  - vm_compute. reflexivity.
  - repeat constructor; vm_compute; intuition discriminate.
Defined.

